(** * Selective harvester (programs/selective-harvest.py)

    A shallow embedding of the harvest loop ([harvestAll], [harvest]) and of
    the response classification ([deliver]) together with the two regular
    expressions [metadataPat] and [errorPat] the classification relies on.

    Python [str] values are modelled by [string]; a character is a code point
    below 256.  Dictionaries with a fixed set of keys read through
    [dict.get(key, default)] are records of optional fields.  The file system
    is a finite map from path strings to nodes, and the outside world (curl,
    directory creation) is an oracle. *)

From Stdlib Require Import Ascii String.
From stdpp Require Import gmap strings list fin_maps sorting.

#[local] Arguments String.append : simpl nomatch.
#[local] Open Scope bool_scope.

(** ** Text: the [str] operations the program uses *)

Module Text.

(** [p +:+ rest = s] seen from the left: [lit p s] is the rest of [s] after
    the literal [p], when [s] starts with [p]. *)
Fixpoint lit (p s : string) : option string :=
  match p with
  | "" => Some s
  | String a p' =>
      match s with
      | String b s' => if Ascii.eqb a b then lit p' s' else None
      | "" => None
      end
  end.

Definition startswith (p s : string) : bool :=
  match lit p s with Some _ => true | None => false end.

(** [p in s] *)
Fixpoint contains (p s : string) : bool :=
  startswith p s ||
  match s with
  | "" => false
  | String _ s' => contains p s'
  end.

Fixpoint mem (c : ascii) (s : string) : bool :=
  match s with
  | "" => false
  | String x s' => Ascii.eqb c x || mem c s'
  end.

Fixpoint take (n : nat) (s : string) : string :=
  match n, s with
  | S n', String x s' => String x (take n' s')
  | _, _ => ""
  end.

(** [str.isspace] on one character, for code points below 256. *)
Definition isspace (c : ascii) : bool :=
  match c with
  | "009" | "010" | "011" | "012" | "013"
  | "028" | "029" | "030" | "031" | " " | "133" | "160" => true
  | _ => false
  end%char.

Fixpoint lstrip (s : string) : string :=
  match s with
  | "" => ""
  | String c s' => if isspace c then lstrip s' else s
  end.

Fixpoint rstrip (s : string) : string :=
  match s with
  | "" => ""
  | String c s' =>
      match rstrip s' with
      | "" => if isspace c then "" else String c ""
      | r => String c r
      end
  end.

(** [s.strip()] *)
Definition strip (s : string) : string := rstrip (lstrip s).

(** [s.replace(a, b)] for single characters [a] and [b]. *)
Fixpoint replace (a b : ascii) (s : string) : string :=
  match s with
  | "" => ""
  | String c s' => String (if Ascii.eqb c a then b else c) (replace a b s')
  end.

End Text.

(** ** Regular expressions: the fragment of [re] the two patterns use,
    with the backtracking, leftmost, greedy semantics of [re.search]. *)

Module Regex.
Import Text.

Inductive cls :=
| AnyChar                     (* [.] under [re.S] *)
| NoneOf (cs : list ascii)    (* [[^...]] *)
| OneOf (cs : list ascii).    (* [[...]] *)

Definition cls_test (c : cls) (x : ascii) : bool :=
  match c with
  | AnyChar => true
  | NoneOf cs => negb (existsb (Ascii.eqb x) cs)
  | OneOf cs => existsb (Ascii.eqb x) cs
  end.

Inductive re :=
| Lit (p : string)
| Set1 (c : cls)
| Star (c : cls)              (* greedy [c*] *)
| Seq (r1 r2 : re)
| Grp (r : re).               (* capturing group *)

(** Greedy star: consume as many characters of class [c] as there are, then
    give characters back one at a time until the continuation succeeds. *)
Fixpoint star {A} (c : cls) (s : string) (k : string → option A) : option A :=
  match s with
  | "" => k ""
  | String x s' =>
      if cls_test c x then
        match star c s' k with
        | Some r => Some r
        | None => k s
        end
      else k s
  end.

(** [run r s caps k]: match [r] at the start of [s], then continue with [k] on
    the rest; [caps] are the groups closed so far, in order. *)
Fixpoint run (r : re) (s : string) (caps : list string)
    (k : string → list string → option (list string)) : option (list string) :=
  match r with
  | Lit p => match lit p s with Some s' => k s' caps | None => None end
  | Set1 c =>
      match s with
      | String x s' => if cls_test c x then k s' caps else None
      | "" => None
      end
  | Star c => star c s (λ s', k s' caps)
  | Seq r1 r2 => run r1 s caps (λ s1 caps1, run r2 s1 caps1 k)
  | Grp r1 =>
      run r1 s caps
        (λ s1 caps1, k s1 (caps1 ++ [take (String.length s - String.length s1) s]))
  end.

Definition match_here (r : re) (s : string) : option (list string) :=
  run r s [] (λ _ caps, Some caps).

(** [pat.search(s)]: the match at the leftmost position that has one. *)
Fixpoint search (r : re) (s : string) : option (list string) :=
  match match_here r s with
  | Some caps => Some caps
  | None =>
      match s with
      | "" => None
      | String _ s' => search r s'
      end
  end.

(** [match.group(n)] for [n >= 1]. *)
Definition group (n : nat) (caps : list string) : string :=
  nth (pred n) caps "".

End Regex.

Infix "·" := Regex.Seq (at level 41, right associativity).

(** ** The classification inside [deliver] *)

Module Classifier.
Import Text Regex.

Definition dquote : ascii := "034"%char.
Definition squote : ascii := "039"%char.

(** [metadataPat], compiled with [re.S]: an opening tag "<metadata[^>]*>",
    a group of any characters, as many as possible, and "</metadata>". *)
Definition metadataPat : re :=
  Lit "<metadata" · Star (NoneOf [">"%char]) · Lit ">" ·
  Grp (Star AnyChar) · Lit "</metadata>".

(** [errorPat], compiled with [re.S]: "<error", any characters, "code=", one
    quote of either kind, a group of characters that are not quotes, one quote
    of either kind, the rest of the tag up to ">", a group of any characters,
    as many as possible, and "</error>". *)
Definition errorPat : re :=
  Lit "<error" · Star AnyChar · Lit "code=" · Set1 (OneOf [squote; dquote]) ·
  Grp (Star (NoneOf [squote; dquote])) · Set1 (OneOf [squote; dquote]) ·
  Star (NoneOf [">"%char]) · Lit ">" · Grp (Star AnyChar) · Lit "</error>".

(** What [deliver] decides from the text it has read: either it writes
    [payload] back to the file and leaves [error] at [None], or it leaves the
    file alone and returns the string [error]. *)
Inductive verdict :=
| Rewrite (payload : string)
| Fail (error : string).

Definition deliver_text (text : string) : verdict :=
  if contains "</GetRecord>" text && contains "</metadata>" text then
    match search metadataPat text with
    | Some m => Rewrite (strip (group 1 m))
    | None => Fail "No metadata found"
    end
  else if contains "</error>" text then
    match search errorPat text with
    | Some m => Fail (group 1 m +:+ ": " +:+ group 2 m)
    | None => Fail "Could not parse error message"
    end
  else Fail "No record found and no error message found".

End Classifier.

(** ** The operating system: files, directories, curl

    A path is the string the program passes to the system call; the file
    system maps each path to what is there.  [os.makedirs] creates the
    directory and the missing directories above it, which it finds with
    [posixpath.split]; it fails when a regular file is in the way, and the
    oracle may refuse it for any other reason, as it may refuse to store a
    body.  A refused [os.makedirs] leaves the file system as it was.

    Two strings that name one file, as [d/s/a] and [d/s/./a] do, are two
    paths here.  Statements that count files, or that say which paths stay
    as they are, are therefore made for plain names and plain paths, where
    different strings are different files.  The content of a regular file is
    the text that reading it gives; a file that does not decode is not
    modelled.  The system removes a regular file it is asked to remove. *)

Module OS.
Import Text.

Inductive node :=
| File (text : string)    (* a regular file; [text] is what reading it gives *)
| Dir.

(** The exceptions the program can meet; all are instances of [Exception]. *)
Inductive exn :=
| FileNotFoundError
| IsADirectoryError
| FileExistsError
| NotADirectoryError
| PermissionError.

(** What one call of curl does: it stores the response body in the output
    file, or stores nothing (no connection, no route), or cannot be started. *)
Inductive curl_result :=
| Body (text : string)
| NoOutput
| SpawnFails.

(** The outside world.  Both oracles see the number of earlier requests made
    to the outside, so the same request may be answered differently later. *)
Record Env := {
  curl : nat → string → string → curl_result;    (* time, output file, url *)
  makedirs_ok : nat → string → bool;             (* time, path *)
}.

Record World := mkWorld {
  files : gmap string node;
  calls : list (string * string);   (* the curl calls so far, oldest first *)
  tick : nat;
}.

Inductive result (A : Type) :=
| Ok (a : A)
| Raised (e : exn).
Arguments Ok {A} a.
Arguments Raised {A} e.

Definition M (A : Type) : Type := World → result A * World.

Definition ret {A} (a : A) : M A := λ w, (Ok a, w).
Definition bind {A B} (m : M A) (f : A → M B) : M B :=
  λ w, match m w with
       | (Ok a, w') => f a w'
       | (Raised e, w') => (Raised e, w')
       end.
(** [try: m  except Exception as e: h e] *)
Definition try_except {A} (m : M A) (h : exn → M A) : M A :=
  λ w, match m w with
       | (Ok a, w') => (Ok a, w')
       | (Raised e, w') => h e w'
       end.

(** *** Paths: what [os.makedirs] takes from [posixpath] *)

(** [(p[:i], p[i:])] with [i = p.rfind('/') + 1] *)
Fixpoint cut_last_slash (p : string) : string * string :=
  match p with
  | "" => ("", "")
  | String c r =>
      if mem "/" r then
        let (head, tail) := cut_last_slash r in (String c head, tail)
      else if Ascii.eqb c "/" then ("/", r)
      else ("", p)
  end.

(** [s == '/' * len(s)] *)
Fixpoint all_slashes (s : string) : bool :=
  match s with
  | "" => true
  | String c r => Ascii.eqb c "/" && all_slashes r
  end.

(** [s.rstrip('/')] *)
Fixpoint rstrip_slash (s : string) : string :=
  match s with
  | "" => ""
  | String c r => if all_slashes s then "" else String c (rstrip_slash r)
  end.

(** [posixpath.split(p)]: the head loses the slashes at its end unless it
    consists of slashes only. *)
Definition os_split (p : string) : string * string :=
  let (head, tail) := cut_last_slash p in
  (if all_slashes head then head else rstrip_slash head, tail).

(** The directory [os.makedirs(name)] turns to first: the head of [name],
    or of the head when the tail is empty, provided head and tail are not
    empty.  The root directory always exists, so a head of slashes only is
    never turned to. *)
Definition makedirs_head (name : string) : option string :=
  let (head, tail) := os_split name in
  let (head, tail) := if String.eqb tail "" then os_split head else (head, tail) in
  if String.eqb head "" || String.eqb tail "" || all_slashes head then None
  else Some head.

(** [os.mkdir(name)] as [os.makedirs(..., exist_ok=True)] calls it: a
    directory that is there already is accepted, a regular file is not. *)
Definition mkdir (name : string) (fs : gmap string node) : option (gmap string node) :=
  match fs !! name with
  | None => Some (<[name := Dir]> fs)
  | Some Dir => Some fs
  | Some (File _) => None
  end.

(** The recursion of [os.makedirs]: when the head is missing it is made
    first, with the directories above it; a regular file in the place of the
    head lets [os.mkdir] fail.  [None] stands for the exception.  Every head
    is shorter than its path, so the length of the path is fuel enough. *)
Fixpoint makedirs_go (fuel : nat) (name : string) (fs : gmap string node)
    : option (gmap string node) :=
  match makedirs_head name, fuel with
  | Some head, S fuel' =>
      match fs !! head with
      | None =>
          match makedirs_go fuel' head fs with
          | Some fs' => mkdir name fs'
          | None => None
          end
      | Some Dir => mkdir name fs
      | Some (File _) => None
      end
  | _, _ => mkdir name fs
  end.

Section Primitives.
Variable env : Env.

(** [os.path.exists(p)] *)
Definition path_exists (p : string) : M bool :=
  λ w, (Ok (match files w !! p with Some _ => true | None => false end), w).

(** [os.path.isdir(p)] *)
Definition path_isdir (p : string) : M bool :=
  λ w, (Ok (match files w !! p with Some Dir => true | _ => false end), w).

(** [os.makedirs(p, exist_ok=True)] *)
Definition makedirs (p : string) : M unit :=
  λ w, match files w !! p with
       | Some Dir => (Ok tt, w)
       | Some (File _) => (Raised FileExistsError, w)
       | None =>
           let after fs := mkWorld fs (calls w) (S (tick w)) in
           if makedirs_ok env (tick w) p then
             match makedirs_go (String.length p) p (files w) with
             | Some fs => (Ok tt, after fs)
             | None => (Raised NotADirectoryError, after (files w))
             end
           else (Raised PermissionError, after (files w))
       end.

(** [run(COMMAND + (docDest, docUrl))] with [COMMAND = ('curl', '-s', '-o')]:
    the exit status of curl is not looked at. *)
Definition run_curl (docDest docUrl : string) : M unit :=
  λ w, let called := calls w ++ [(docDest, docUrl)] in
       match curl env (tick w) docDest docUrl with
       | SpawnFails => (Raised FileNotFoundError, mkWorld (files w) called (S (tick w)))
       | NoOutput => (Ok tt, mkWorld (files w) called (S (tick w)))
       | Body text =>
           match files w !! docDest with
           | Some Dir => (Ok tt, mkWorld (files w) called (S (tick w)))
           | _ => (Ok tt, mkWorld (<[docDest := File text]> (files w)) called (S (tick w)))
           end
       end.

(** [with open(p) as fh: text = fh.read()] *)
Definition open_read (p : string) : M string :=
  λ w, match files w !! p with
       | Some (File text) => (Ok text, w)
       | Some Dir => (Raised IsADirectoryError, w)
       | None => (Raised FileNotFoundError, w)
       end.

(** [with open(p, 'w') as fh: fh.write(text)] *)
Definition open_write (p text : string) : M unit :=
  λ w, match files w !! p with
       | Some Dir => (Raised IsADirectoryError, w)
       | _ => (Ok tt, mkWorld (<[p := File text]> (files w)) (calls w) (tick w))
       end.

(** [os.unlink(p)] *)
Definition unlink (p : string) : M unit :=
  λ w, match files w !! p with
       | Some (File _) => (Ok tt, mkWorld (delete p (files w)) (calls w) (tick w))
       | Some Dir => (Raised IsADirectoryError, w)
       | None => (Raised FileNotFoundError, w)
       end.

End Primitives.
End OS.

Notation "'do' x <- m ; k" := (OS.bind m (λ x, k))
  (at level 10, x name, m at level 100, k at level 200,
   format "'[v' 'do'  x  <-  m ; '/' k ']'").
Notation "m ;; k" := (OS.bind m (λ _, k))
  (at level 100, k at level 200, right associativity).

(** ** The harvest loop *)

Module Harvest.
Import Text Regex Classifier OS.

(** One [output-set] of the task description: [{'name': ..., 'ids': set()}]. *)
Record RepoSet := {
  set_name : option string;
  set_ids : option (gset string);
}.

(** One [repository]: [{'name', 'sets', 'url', 'meta', 'dest'}]; [readTask]
    leaves out 'url', 'meta' and 'dest' when the description has no such
    element, hence the defaults of [get]. *)
Record RepoTask := {
  task_name : option string;
  task_url : option string;
  task_meta : option string;
  task_dest : option string;
  task_sets : option (list RepoSet);
}.

(** [d.get(key, dflt)] *)
Definition get {A} (field : option A) (dflt : A) : A := default dflt field.

(** [sorted(ids)] for a set of strings. *)
Definition sorted (ids : gset string) : list string :=
  merge_sort String.le (elements ids).

(** The value of [docError]: [None], the string [deliver] returned, or the
    exception caught. *)
Inductive docerr :=
| ErrStr (s : string)
| ErrExn (e : exn).

(** Truth value of [docError] in [if docError]. *)
Definition truthy (d : option docerr) : bool :=
  match d with
  | None => false
  | Some (ErrStr s) => negb (String.eqb s "")
  | Some (ErrExn _) => true
  end.

(** [docUrl], lines 142-146, and [docDest], line 147. *)
Definition docUrl_of (repoUrl docId meta : string) : string :=
  repoUrl +:+ "?verb=GetRecord&identifier=" +:+ docId +:+ "&metadataPrefix=" +:+ meta.

Definition docDest_of (setDest docId : string) : string :=
  setDest +:+ "/" +:+ replace ":" "-" docId.

Section Run.
Variable env : Env.

Definition deliver (path : string) : M (option string) :=
  do text <- open_read path;
  match deliver_text text with
  | Rewrite payload => open_write path payload ;; ret None
  | Fail error => ret (Some error)
  end.

(** Lines 102-111 and, for a set, 123-132: the directory is created when the
    path does not exist, and must be a directory when it does. *)
Definition check_dir (dest : string) : M bool :=
  do there <- path_exists dest;
  if negb there then
    try_except (makedirs env dest ;; ret true) (λ _, ret false)
  else
    do isdir <- path_isdir dest;
    if negb isdir then ret false else ret true.

(** The body of [for docId in ids], lines 138-165; the result is the truth
    value of [docError] at the end of the iteration. *)
Definition harvest_doc (repoTask : RepoTask) (setDest docId : string) : M bool :=
  let repoUrl := get (task_url repoTask) "" in
  let meta := get (task_meta repoTask) "" in
  let docUrl := docUrl_of repoUrl docId meta in
  let docDest := docDest_of setDest docId in
  do docError <-
    try_except
      (run_curl env docDest docUrl ;;
       do error <- deliver docDest;
       ret (ErrStr <$> error))
      (λ e, ret (Some (ErrExn e)));
  do there <- (if truthy docError then path_exists docDest else ret false);
  (if there then unlink docDest else ret tt) ;;
  ret (truthy docError).

(** [for docId in ids], with the loop variables [(setGood, nError)]. *)
Fixpoint harvest_ids (repoTask : RepoTask) (setDest : string) (ids : list string)
    (st : bool * nat) : M (bool * nat) :=
  match ids with
  | [] => ret st
  | docId :: rest =>
      do failed <- harvest_doc repoTask setDest docId;
      harvest_ids repoTask setDest rest
        (if failed then (false, S (snd st)) else st)
  end.

(** [for repoSet in repoTask.get('sets', [])], with the loop variable [good]. *)
Fixpoint harvest_sets (repoTask : RepoTask) (dest : string) (sets : list RepoSet)
    (good : bool) : M bool :=
  match sets with
  | [] => ret good
  | repoSet :: rest =>
      let setName := get (set_name repoSet) "UNSPECIFIED" in
      let ids := from_option sorted [] (set_ids repoSet) in
      let setDest := dest +:+ "/" +:+ setName in
      do setGood <- check_dir setDest;
      if negb setGood then harvest_sets repoTask dest rest false
      else
        do st <- harvest_ids repoTask setDest ids (true, 0);
        harvest_sets repoTask dest rest (if negb (fst st) then false else good)
  end.

Definition harvest (repoTask : RepoTask) : M bool :=
  let dest := get (task_dest repoTask) "" in
  do good <- check_dir dest;
  if negb good then ret false
  else harvest_sets repoTask dest (get (task_sets repoTask) []) true.

(** [for repoTask in repoTasks], with the loop variable [good]. *)
Fixpoint harvestAll_loop (repoTasks : list RepoTask) (good : bool) : M bool :=
  match repoTasks with
  | [] => ret good
  | repoTask :: rest =>
      do thisGood <- harvest repoTask;
      harvestAll_loop rest (if negb thisGood then false else good)
  end.

Definition harvestAll (repoTasks : list RepoTask) : M bool :=
  harvestAll_loop repoTasks true.

End Run.
End Harvest.

(** * Vocabulary of the properties

    These definitions are not part of the program; they name what the
    properties speak of.  [observe_all] follows the wording of the
    specification for the result of a run: per task whether the check of the
    destination directory passed, per set whether the check of its directory
    passed and how many of its identifiers failed. *)

Module Spec.
Import Text Regex Classifier OS Harvest.

(** Every character of [s] is in the class [c]. *)
Fixpoint all_in (c : cls) (s : string) : bool :=
  match s with
  | "" => true
  | String x s' => cls_test c x && all_in c s'
  end.

Definition is_quote (x : ascii) : bool := cls_test (OneOf [squote; dquote]) x.

Definition returned {A} (r : result A) : Prop :=
  match r with Ok _ => True | Raised _ => False end.

Definition is_file (n : option node) : bool :=
  match n with Some (File _) => true | _ => false end.

(** [p] lies below the directory [dir]. *)
Definition in_dir (dir p : string) : bool := startswith (dir +:+ "/") p.

(** The paths below [dir] that hold a regular file. *)
Definition dir_files (dir : string) (w : World) : gset string :=
  dom (filter (λ pn, in_dir dir pn.1 && is_file (Some pn.2) = true) (files w)).

Definition ids_of (repoSet : RepoSet) : list string :=
  from_option sorted [] (set_ids repoSet).

Definition set_dest (repoTask : RepoTask) (repoSet : RepoSet) : string :=
  get (task_dest repoTask) "" +:+ "/" +:+ get (set_name repoSet) "UNSPECIFIED".

(** The curl call made for one identifier: output file and url. *)
Definition call_of (repoTask : RepoTask) (setDest docId : string)
    : string * string :=
  (docDest_of setDest docId,
   docUrl_of (get (task_url repoTask) "") docId (get (task_meta repoTask) "")).

Definition set_calls (repoTask : RepoTask) (repoSet : RepoSet)
    (ids : list string) : list (string * string) :=
  call_of repoTask (set_dest repoTask repoSet) <$> ids.

(** Reading the world without changing it. *)
Definition peek {A} (f : World → A) : M A := λ w, (Ok (f w), w).

Record set_report := { set_dir_ok : bool; failures : nat }.
Record task_report := { root_ok : bool; set_reports : list set_report }.

(** The curl calls of a set with report [r]: one for every identifier, in
    the order of [sorted(ids)], when the check of the set directory passed,
    and none when it failed. *)
Definition calls_of_set (repoTask : RepoTask) (repoSet : RepoSet) (r : set_report)
    : list (string * string) :=
  if set_dir_ok r then set_calls repoTask repoSet (ids_of repoSet) else [].

(** A plain file name: not empty, without a slash, and not [.] or [..].
    Below one directory two plain names are the same file only when they
    are the same string. *)
Definition plain_name (s : string) : bool :=
  negb (String.eqb s "") && negb (mem "/" s) &&
  negb (String.eqb s ".") && negb (String.eqb s "..").

(** A set fully succeeded; a task fully succeeded. *)
Definition set_ok (r : set_report) : bool := set_dir_ok r && (failures r =? 0).
Definition task_ok (r : task_report) : bool :=
  root_ok r && forallb set_ok (set_reports r).

Section WithEnv.
Variable env : Env.

(** The text [deliver] finds in the output file after curl has run: the body
    curl stored, or what was there before when curl stored nothing. *)
Definition response (w : World) (docDest docUrl : string) : option string :=
  match curl env (tick w) docDest docUrl with
  | Body text => Some text
  | NoOutput =>
      match files w !! docDest with
      | Some (File text) => Some text
      | _ => None
      end
  | SpawnFails => None
  end.

(** The identifier fails fetch or classification. *)
Definition doc_fails (w : World) (docDest docUrl : string) : bool :=
  match response w docDest docUrl with
  | Some text =>
      match deliver_text text with
      | Rewrite _ => false
      | Fail _ => true
      end
  | None => true
  end.

(** The number of identifiers of [ids] that fail fetch or classification,
    each looked at in the world it is processed in. *)
Fixpoint failing_ids (repoTask : RepoTask) (setDest : string) (ids : list string)
    : M nat :=
  match ids with
  | [] => ret 0
  | docId :: rest =>
      let docUrl :=
        docUrl_of (get (task_url repoTask) "") docId (get (task_meta repoTask) "") in
      do failed <- peek (λ w, doc_fails w (docDest_of setDest docId) docUrl);
      harvest_doc env repoTask setDest docId ;;
      do n <- failing_ids repoTask setDest rest;
      ret (if failed then S n else n)
  end.

(** What a run does, told set by set and task by task: whether the directory
    check passed, and how many identifiers failed. *)
Fixpoint observe_sets (repoTask : RepoTask) (dest : string) (sets : list RepoSet)
    : M (list set_report) :=
  match sets with
  | [] => ret []
  | repoSet :: rest =>
      let setDest := dest +:+ "/" +:+ get (set_name repoSet) "UNSPECIFIED" in
      do ok <- check_dir env setDest;
      do k <- (if ok
               then failing_ids repoTask setDest (from_option sorted [] (set_ids repoSet))
               else ret 0);
      do rs <- observe_sets repoTask dest rest;
      ret ({| set_dir_ok := ok; failures := k |} :: rs)
  end.

Definition observe (repoTask : RepoTask) : M task_report :=
  let dest := get (task_dest repoTask) "" in
  do ok <- check_dir env dest;
  do rs <- (if ok then observe_sets repoTask dest (get (task_sets repoTask) [])
            else ret []);
  ret {| root_ok := ok; set_reports := rs |}.

Fixpoint observe_all (repoTasks : list RepoTask) : M (list task_report) :=
  match repoTasks with
  | [] => ret []
  | repoTask :: rest =>
      do r <- observe repoTask;
      do rs <- observe_all rest;
      ret (r :: rs)
  end.

End WithEnv.
End Spec.

(** * The rest of the program *)

(** ** Messages: [error], [errorln], [info], [infoln], [extra], [extraln]

    [VERBOSE] is the global set from the count of [-v] options; [stderr] is
    the list of the strings written so far, oldest first. *)

Module Logging.

Definition newline : string := String "010" "".

Definition error (VERBOSE : nat) (msg : string) (stderr : list string) : list string :=
  if 0 <? VERBOSE then stderr ++ [msg] else stderr.

Definition errorln (VERBOSE : nat) (msg : string) (stderr : list string) : list string :=
  if 0 <? VERBOSE then stderr ++ [msg +:+ newline] else stderr.

Definition info (VERBOSE : nat) (msg : string) (stderr : list string) : list string :=
  if 1 <? VERBOSE then stderr ++ [msg] else stderr.

Definition infoln (VERBOSE : nat) (msg : string) (stderr : list string) : list string :=
  if 1 <? VERBOSE then stderr ++ [msg +:+ newline] else stderr.

Definition extra (VERBOSE : nat) (msg : string) (stderr : list string) : list string :=
  if 2 <? VERBOSE then stderr ++ [msg] else stderr.

Definition extraln (VERBOSE : nat) (msg : string) (stderr : list string) : list string :=
  if 2 <? VERBOSE then stderr ++ [msg +:+ newline] else stderr.

End Logging.

(** ** The task description: [readTask]

    [ET.parse] is taken as given: the description is the tree of elements it
    returns.  The messages [readTask] writes are left out. *)

Module Config.
Import OS.

(** An [xml.etree.ElementTree.Element]: tag, attributes, text (which is
    [None] for an element without text) and children in document order. *)
Inductive Element :=
| Elem (tag : string) (attrib : gmap string string) (text : option string)
       (children : list Element).

Definition tag_of (e : Element) : string :=
  match e with Elem tag _ _ _ => tag end.
Definition attrib_of (e : Element) : gmap string string :=
  match e with Elem _ attrib _ _ => attrib end.
Definition text_of (e : Element) : option string :=
  match e with Elem _ _ text _ => text end.
Definition children_of (e : Element) : list Element :=
  match e with Elem _ _ _ children => children end.

(** [e.iter()]: the element itself and every element below it, in document
    order. *)
Fixpoint iter (e : Element) : list Element :=
  match e with
  | Elem _ _ _ children =>
      e :: (fix below (cs : list Element) : list Element :=
              match cs with
              | [] => []
              | c :: cs' => iter c ++ below cs'
              end) children
  end.

(** [e.iter(tag)] *)
Definition iter_tag (tag : string) (e : Element) : list Element :=
  filter (λ x, tag_of x = tag) (iter e).

(** [e.findall(tag)] for a plain tag: the children of [e] with that tag. *)
Definition findall (tag : string) (e : Element) : list Element :=
  filter (λ x, tag_of x = tag) (children_of e).

Inductive failure :=
| KeyError (key : string)
| ParseError
| IsADirectory.

Inductive outcome (A : Type) :=
| Returns (a : A)
| Raises (e : failure).
Arguments Returns {A} a.
Arguments Raises {A} e.

(** [{'name': ..., 'ids': set()}]; an [id] element without text adds [None]. *)
Record SetInfo := {
  si_name : string;
  si_ids : gset (option string);
}.

(** [{'name': ..., 'sets': [...]}] and, when the repository has such an
    element, 'url', 'meta' and 'dest', whose value is the text of the element
    or [None]. *)
Record RepoInfo := {
  ri_name : string;
  ri_sets : list SetInfo;
  ri_url : option (option string);
  ri_meta : option (option string);
  ri_dest : option (option string);
}.

(** [for elem in rElem.findall(tag): repoInfo[key] = elem.text] *)
Definition last_text (tag : string) (rElem : Element) : option (option string) :=
  foldl (λ _ elem, Some (text_of elem)) None (findall tag rElem).

(** Lines 75-80, one [output-set]. *)
Definition read_set (elem : Element) : outcome SetInfo :=
  match attrib_of elem !! "name" with
  | None => Raises (KeyError "name")
  | Some name =>
      Returns {| si_name := name;
                 si_ids := list_to_set (text_of <$> findall "id" elem) |}
  end.

(** Lines 74-81, [for elem in rElem.findall('output-set')]. *)
Fixpoint read_sets (elems : list Element) : outcome (list SetInfo) :=
  match elems with
  | [] => Returns []
  | elem :: rest =>
      match read_set elem with
      | Raises e => Raises e
      | Returns setInfo =>
          match read_sets rest with
          | Raises e => Raises e
          | Returns sets => Returns (setInfo :: sets)
          end
      end
  end.

(** [selectRepos is not None and repoName not in selectRepos] *)
Definition skipped (selectRepos : option (gset string)) (repoName : string) : bool :=
  match selectRepos with
  | Some sel => bool_decide (repoName ∉ sel)
  | None => false
  end.

(** Lines 60-82, the body of [for rElem in root.iter('repository')]; the
    result is [None] when the repository is skipped. *)
Definition read_repo (selectRepos : option (gset string)) (rElem : Element)
    : outcome (option RepoInfo) :=
  match attrib_of rElem !! "id" with
  | None => Raises (KeyError "id")
  | Some repoName =>
      if skipped selectRepos repoName then Returns None
      else
        match read_sets (findall "output-set" rElem) with
        | Raises e => Raises e
        | Returns sets =>
            Returns (Some {| ri_name := repoName;
                             ri_sets := sets;
                             ri_url := last_text "baseurl" rElem;
                             ri_meta := last_text "metadataprefix" rElem;
                             ri_dest := last_text "recordpath" rElem |})
        end
  end.

(** Lines 59-82, [for rElem in root.iter('repository')]. *)
Fixpoint read_repos (selectRepos : option (gset string)) (rElems : list Element)
    : outcome (list RepoInfo) :=
  match rElems with
  | [] => Returns []
  | rElem :: rest =>
      match read_repo selectRepos rElem with
      | Raises e => Raises e
      | Returns picked =>
          match read_repos selectRepos rest with
          | Raises e => Raises e
          | Returns repos =>
              Returns (match picked with
                       | Some repoInfo => repoInfo :: repos
                       | None => repos
                       end)
          end
      end
  end.

(** [readTask(config, selectRepos)]; the result [None] is [False].  [parse]
    is [ET.parse] on the text of the file, [None] when it raises. *)
Definition readTask (parse : string → option Element) (config : string)
    (selectRepos : option (gset string)) (w : World)
    : outcome (option (list RepoInfo)) :=
  match files w !! config with
  | None => Returns None
  | Some Dir => Raises IsADirectory
  | Some (File text) =>
      match parse text with
      | None => Raises ParseError
      | Some root =>
          match read_repos selectRepos (iter_tag "repository" root) with
          | Raises e => Raises e
          | Returns repos => Returns (Some repos)
          end
      end
  end.

End Config.

(** ** The command line: the value of [repos] in [main], line 232 *)

Module Cli.

(** [s.split(sep)] for a single character: the first piece and the others. *)
Fixpoint split_go (sep : ascii) (s : string) : string * list string :=
  match s with
  | "" => ("", [])
  | String c s' =>
      let '(piece, pieces) := split_go sep s' in
      if Ascii.eqb c sep then ("", piece :: pieces)
      else (String c piece, pieces)
  end.

Definition split (sep : ascii) (s : string) : list string :=
  let '(piece, pieces) := split_go sep s in piece :: pieces.

(** [None if args.repo == '' else set(args.repo.split(','))] *)
Definition repos_of_arg (repo : string) : option (gset string) :=
  if String.eqb repo "" then None
  else Some (list_to_set (split "," repo)).

End Cli.

(** ** More vocabulary *)

Module More.
Import Text Regex Classifier OS Harvest Logging Config Cli.

(** One call of a message function. *)
Inductive logcall :=
| CallError (msg : string)
| CallErrorln (msg : string)
| CallInfo (msg : string)
| CallInfoln (msg : string)
| CallExtra (msg : string)
| CallExtraln (msg : string).

Definition perform (VERBOSE : nat) (c : logcall) : list string → list string :=
  match c with
  | CallError msg => error VERBOSE msg
  | CallErrorln msg => errorln VERBOSE msg
  | CallInfo msg => info VERBOSE msg
  | CallInfoln msg => infoln VERBOSE msg
  | CallExtra msg => extra VERBOSE msg
  | CallExtraln msg => extraln VERBOSE msg
  end.

(** The calls of [cs] one after the other. *)
Definition perform_all (VERBOSE : nat) (cs : list logcall) (stderr : list string)
    : list string :=
  foldl (λ err c, perform VERBOSE c err) stderr cs.

(** [sep.join(pieces)] *)
Fixpoint join (sep : ascii) (pieces : list string) : string :=
  match pieces with
  | [] => ""
  | [piece] => piece
  | piece :: rest => piece +:+ String sep (join sep rest)
  end.

Fixpoint all_space (s : string) : bool :=
  match s with
  | "" => true
  | String c s' => isspace c && all_space s'
  end.

(** The first character of [s] is white space. *)
Definition starts_with_space (s : string) : bool :=
  match s with
  | "" => false
  | String c _ => isspace c
  end.

(** The last character of [s] is white space. *)
Fixpoint ends_with_space (s : string) : bool :=
  match s with
  | "" => false
  | String c "" => isspace c
  | String _ s' => ends_with_space s'
  end.

(** The repository element is not skipped. *)
Definition selected (selectRepos : option (gset string)) (rElem : Element) : Prop :=
  ∃ repoName, attrib_of rElem !! "id" = Some repoName ∧
              skipped selectRepos repoName = false.

(** The destination files of all identifiers of the task, and its
    directories: the destination root and the directories of the sets. *)
Definition doc_paths (repoTask : RepoTask) : list string :=
  concat ((λ repoSet,
             docDest_of (Spec.set_dest repoTask repoSet) <$> Spec.ids_of repoSet)
          <$> get (task_sets repoTask) []).

Definition dir_paths (repoTask : RepoTask) : list string :=
  get (task_dest repoTask) "" ::
  (Spec.set_dest repoTask <$> get (task_sets repoTask) []).

(** The computation never removes or replaces a directory. *)
Definition keeps_directories {A} (m : M A) : Prop :=
  ∀ w p, files w !! p = Some Dir → files (m w).2 !! p = Some Dir.

(** The computation changes the file system at paths with [P] only. *)
Definition touches_only {A} (P : string → Prop) (m : M A) : Prop :=
  ∀ w p, ¬ P p → files (m w).2 !! p = files w !! p.

(** [p] is the directory [dir] or lies above it. *)
Definition at_or_above (dir p : string) : Prop :=
  p = dir ∨ Spec.in_dir p dir = true.

(** A path made of plain names, with or without a slash in front.  Two such
    paths, both with or both without the slash, are the same file only when
    they are the same string. *)
Definition plain_path (p : string) : bool :=
  forallb Spec.plain_name
    (split "/" (match p with String "/"%char r => r | _ => p end)).

Definition rooted (p : string) : bool := startswith "/" p.

(** The destination root is a plain path, and the names of the sets and the
    identifiers are plain names. *)
Definition plain_task (repoTask : RepoTask) : Prop :=
  plain_path (get (task_dest repoTask) "") = true ∧
  ∀ repoSet, repoSet ∈ get (task_sets repoTask) [] →
    Spec.plain_name (get (set_name repoSet) "UNSPECIFIED") = true ∧
    ∀ docId, docId ∈ Spec.ids_of repoSet → Spec.plain_name docId = true.

End More.

(** * Concrete repositories, tasks and worlds *)

Module Demo.
Import Text Regex Classifier OS Harvest.

Definition record_of (payload : string) : string :=
  "<OAI-PMH><GetRecord><record><metadata>" +:+ payload +:+
  "</metadata></record></GetRecord></OAI-PMH>".

Definition error_page : string :=
  "<OAI-PMH><error code='idDoesNotExist'>Unknown id</error></OAI-PMH>".

(** A record whose [about] part holds a metadata element of its own. *)
Definition record_with_about : string :=
  "<GetRecord><record><metadata><dc>A</dc></metadata>" +:+
  "<about><metadata>B</metadata></about></record></GetRecord>".

(** Two error elements in one response. *)
Definition two_errors : string :=
  "<error code='badArgument'>m1</error><error code='badVerb'>m2</error>".

(** A repository that has a record for every identifier; the payload is the
    url that was asked for. *)
Definition echo : Env := {|
  curl := λ _ _ url, Body (record_of url);
  makedirs_ok := λ _ _, true;
|}.

(** A repository that does not know the identifier [a:b]. *)
Definition without_a_colon_b : Env := {|
  curl := λ _ _ url,
    if contains "identifier=a:b&" url then Body error_page
    else Body (record_of "<dc>x</dc>");
  makedirs_ok := λ _ _, true;
|}.

Definition empty_world : World := mkWorld ∅ [] 0.

(** A world in which the destination root [d] is a regular file. *)
Definition root_is_file : World := mkWorld {["d" := File "notes"]} [] 0.

Definition set_of (name : string) (ids : gset string) : RepoSet :=
  {| set_name := Some name; set_ids := Some ids |}.

Definition task_of (dest : string) (sets : list RepoSet) : RepoTask :=
  {| task_name := Some "repo"; task_url := Some "http://repo/oai";
     task_meta := Some "ead"; task_dest := Some dest; task_sets := Some sets |}.

(** A world in which the set directory [d/s] holds a file already. *)
Definition with_old_file : World :=
  mkWorld {["d" := Dir; "d/s" := Dir; "d/s/old" := File "kept"]} [] 0.

(** One set with two identifiers that differ in [:] against [-] only. *)
Definition colliding : RepoTask :=
  task_of "d" [set_of "s" {["a:b"; "a-b"]}].

Definition plain : RepoTask :=
  task_of "d" [set_of "s" {["a"; "b:c"]}].

(** The directory of the first set is the destination file of identifier [t]
    of the second set. *)
Definition nested : RepoTask :=
  task_of "d" [set_of "s/t" ∅; set_of "s" {["t"; "u"]}].

End Demo.

(** ** More concrete inputs *)

Module DemoMore.
Import OS Harvest Config.

Definition el (tag : string) (attrs : list (string * string))
    (text : option string) (children : list Element) : Element :=
  Elem tag (list_to_map attrs) text children.

(** An output set with the identifier [x] twice and an [id] without text. *)
Definition set_s : Element :=
  el "output-set" [("name", "s")] None
    [el "id" [] (Some "x") []; el "id" [] (Some "x") []; el "id" [] None []].

(** A repository with two [baseurl] elements and no [recordpath]. *)
Definition repo_r1 : Element :=
  el "repository" [("id", "r1")] None
    [el "baseurl" [] (Some "http://a/oai") [];
     el "baseurl" [] (Some "http://b/oai") [];
     el "metadataprefix" [] (Some "ead") [];
     set_s].

Definition repo_r2 : Element :=
  el "repository" [("id", "r2")] None [el "baseurl" [] None []].

(** A repository whose output set has no name. *)
Definition repo_r3 : Element :=
  el "repository" [("id", "r3")] None [el "output-set" [] None []].

(** [r2] lies inside another element. *)
Definition description : Element :=
  el "config" [] None [repo_r1; el "group" [] None [repo_r2]].

Definition flawed : Element :=
  el "config" [] None [repo_r1; repo_r3].

Definition parse_demo (text : string) : option Element :=
  if String.eqb text "description" then Some description
  else if String.eqb text "flawed" then Some flawed
  else None.

Definition config_world : World :=
  mkWorld {["config.xml" := File "description"; "flawed.xml" := File "flawed"]} [] 0.

(** Every request stays without an answer. *)
Definition silent : Env := {|
  curl := λ _ _ _, NoOutput;
  makedirs_ok := λ _ _, true;
|}.

End DemoMore.

(** * Properties *)

(** ** Strings *)

Section TextFacts.
Import Text.

Lemma str_app_cons a (s t : string) : String a s +:+ t = String a (s +:+ t).
Proof. reflexivity. Qed.

Lemma str_app_nil_r (s : string) : s +:+ "" = s.
Proof. induction s as [|a s IH]; simpl; [done | by rewrite IH]. Qed.

Lemma str_app_assoc (s t u : string) : (s +:+ t) +:+ u = s +:+ t +:+ u.
Proof. induction s as [|a s IH]; simpl; [done | by rewrite IH]. Qed.

Lemma str_length_app (s t : string) :
  String.length (s +:+ t) = String.length s + String.length t.
Proof. induction s as [|a s IH]; simpl; [done | by rewrite IH]. Qed.

Lemma mem_app c (a b : string) : mem c (a +:+ b) = mem c a || mem c b.
Proof.
  induction a as [|x a IH]; cbn [mem]; [done|].
  rewrite str_app_cons. cbn [mem]. by rewrite IH, orb_assoc.
Qed.

Lemma take_app (u v : string) :
  take (String.length (u +:+ v) - String.length v) (u +:+ v) = u.
Proof.
  rewrite str_length_app.
  replace (String.length u + String.length v - String.length v)
    with (String.length u) by lia.
  induction u as [|a u IH]; simpl.
  - by destruct v.
  - by rewrite IH.
Qed.

Lemma lit_app (p s : string) : lit p (p +:+ s) = Some s.
Proof.
  induction p as [|a p IH]; simpl; [done|].
  by rewrite Ascii.eqb_refl.
Qed.

Lemma lit_inv (p s s' : string) : lit p s = Some s' → s = p +:+ s'.
Proof.
  revert s. induction p as [|a p IH]; intros s; simpl.
  - by intros [= ->].
  - destruct s as [|b s]; [done|].
    destruct (Ascii.eqb a b) eqn:E; [|done].
    apply Ascii.eqb_eq in E as ->. intros H. by rewrite (IH _ H).
Qed.

Lemma contains_here (p s : string) : contains p (p +:+ s) = true.
Proof.
  assert (startswith p (p +:+ s) = true) as H
    by (unfold startswith; by rewrite lit_app).
  destruct (p +:+ s); simpl; by rewrite H.
Qed.

Lemma contains_intro (p a b : string) : contains p (a +:+ p +:+ b) = true.
Proof.
  induction a as [|x a IH]; simpl.
  - apply contains_here.
  - rewrite IH. apply orb_true_r.
Qed.

Lemma contains_elim (p s : string) :
  contains p s = true → ∃ a b, s = a +:+ p +:+ b.
Proof.
  induction s as [|x s IH]; simpl; unfold startswith.
  - destruct (lit p "") as [r|] eqn:E; [|done].
    intros _. exists "", r. simpl. by apply lit_inv.
  - destruct (lit p (String x s)) as [r|] eqn:E.
    + intros _. exists "", r. simpl. by apply lit_inv.
    + simpl. intros [a [b ->]]%IH. by exists (String x a), b.
Qed.

Lemma contains_cons_ne c q x (s : string) :
  Ascii.eqb c x = false →
  contains (String c q) (String x s) = contains (String c q) s.
Proof.
  intros H.
  change (contains (String c q) (String x s))
    with (startswith (String c q) (String x s) || contains (String c q) s).
  unfold startswith. cbn [lit]. by rewrite H.
Qed.

(** A literal whose first character does not occur again in it cannot
    overlap a second copy of itself. *)
Lemma split_at_first c (q post v t : string) :
  mem c q = false → q +:+ post = v +:+ String c t →
  ∃ w, v = q +:+ w ∧ post = w +:+ String c t.
Proof.
  revert v. induction q as [|a q IH]; intros v Hm E; simpl in *.
  - by exists v.
  - apply orb_false_elim in Hm as [Hca Hm].
    destruct v as [|x v]; simpl in E.
    + injection E as -> _. by rewrite Ascii.eqb_refl in Hca.
    + injection E as -> E. destruct (IH _ Hm E) as (w & -> & ->). by exists w.
Qed.

Lemma no_later_occurrence c (q post v1 v2 : string) :
  mem c q = false → contains (String c q) post = false →
  String c q +:+ post = v1 +:+ v2 → v1 ≠ "" →
  lit (String c q) v2 = None.
Proof.
  intros Hm Hc E Hv1.
  destruct (lit (String c q) v2) as [t|] eqn:L; [|done].
  apply lit_inv in L as ->.
  destruct v1 as [|x v1]; [done|]. simpl in E. injection E as _ E.
  destruct (split_at_first _ _ _ _ _ Hm E) as (w & _ & ->).
  change (String c (q +:+ t)) with (String c q +:+ t) in Hc.
  by rewrite contains_intro in Hc.
Qed.

Lemma lit_within c (q b t r : string) :
  mem c q = false → lit q (b +:+ String c t) = Some r → is_Some (lit q b).
Proof.
  revert b. induction q as [|a q IH]; intros b Hm; simpl in *; [by eauto|].
  apply orb_false_elim in Hm as [Hca Hm].
  destruct b as [|x b]; simpl.
  - rewrite Ascii.eqb_sym in Hca. by rewrite Hca.
  - destruct (Ascii.eqb a x); [|done]. by apply IH.
Qed.

Lemma no_earlier_occurrence c (q pre a b rest : string) :
  mem c q = false → contains (String c q) pre = false →
  pre = a +:+ b → b ≠ "" →
  lit (String c q) (b +:+ String c q +:+ rest) = None.
Proof.
  intros Hm Hc -> Hb.
  destruct (lit _ _) as [r|] eqn:L; [|done].
  destruct b as [|x b]; [done|]. simpl in L.
  destruct (Ascii.eqb c x) eqn:E; [|done]. apply Ascii.eqb_eq in E as <-.
  destruct (lit_within _ _ _ _ _ Hm L) as [r' L'].
  apply lit_inv in L' as ->.
  change (String c (q +:+ r')) with (String c q +:+ r') in Hc.
  by rewrite contains_intro in Hc.
Qed.

End TextFacts.

(** ** Paths and [os.makedirs] *)

Section PathFacts.
Import Text OS Spec.

Lemma all_slashes_mem (s : string) : all_slashes s = false → s ≠ "".
Proof. by destruct s. Qed.

Lemma cut_last_slash_app (p head tail : string) :
  cut_last_slash p = (head, tail) → p = head +:+ tail.
Proof.
  revert head tail. induction p as [|c r IH]; intros head tail; cbn [cut_last_slash].
  - by intros [= <- <-].
  - destruct (mem "/" r).
    + destruct (cut_last_slash r) as [h t]. intros [= <- <-].
      by rewrite str_app_cons, <- (IH h t).
    + destruct (Ascii.eqb_spec c "/") as [->|_]; by intros [= <- <-].
Qed.

Lemma cut_last_slash_no_head (p tail : string) :
  cut_last_slash p = ("", tail) → mem "/" p = false.
Proof.
  destruct p as [|c r]; cbn [cut_last_slash mem]; [done|].
  destruct (mem "/" r) eqn:Hm.
  - by destruct (cut_last_slash r).
  - destruct (Ascii.eqb_spec c "/") as [->|Hc]; [done|].
    intros _. rewrite orb_false_r. apply Ascii.eqb_neq. congruence.
Qed.

(** The head is empty or ends with a slash. *)
Lemma cut_last_slash_head (p head tail : string) :
  cut_last_slash p = (head, tail) → head = "" ∨ ∃ h, head = h +:+ "/".
Proof.
  revert head tail. induction p as [|c r IH]; intros head tail; cbn [cut_last_slash].
  - intros [= <- <-]. by left.
  - destruct (mem "/" r) eqn:Hm.
    + destruct (cut_last_slash r) as [h t] eqn:E. intros [= <- <-]. right.
      destruct (IH h t eq_refl) as [->|[h' ->]].
      * apply cut_last_slash_no_head in E. congruence.
      * by exists (String c h').
    + destruct (Ascii.eqb_spec c "/") as [->|_]; intros [= <- <-].
      * right. by exists "".
      * by left.
Qed.

Lemma rstrip_slash_prefix (s : string) : ∃ r, s = rstrip_slash s +:+ r.
Proof.
  induction s as [|c s [r IH]]; cbn [rstrip_slash]; [by exists ""|].
  destruct (all_slashes (String c s)).
  - by exists (String c s).
  - exists r. by rewrite str_app_cons, <- IH.
Qed.

(** Stripping a string that ends with a slash takes at least that slash. *)
Lemma rstrip_slash_proper (s : string) :
  all_slashes s = false → (∃ h, s = h +:+ "/") →
  ∃ r, s = rstrip_slash s +:+ "/" +:+ r.
Proof.
  induction s as [|c s IH]; [done|].
  intros Hall [h Eh]. cbn [rstrip_slash]. rewrite Hall.
  destruct (all_slashes s) eqn:Hs.
  - destruct s as [|d s'].
    + destruct h as [|x h]; cbn in Eh.
      * injection Eh as ->. done.
      * injection Eh as _ Eh. by destruct h.
    + cbn [all_slashes] in Hs. apply andb_prop in Hs as [Hd Hs'].
      apply Ascii.eqb_eq in Hd as ->.
      exists s'. cbn [rstrip_slash all_slashes]. rewrite Hs'. done.
  - destruct IH as [r Er]; [done| |].
    + destruct h as [|x h]; cbn in Eh.
      * injection Eh as _ ->. by cbn in Hs.
      * injection Eh as _ ->. by exists h.
    + exists r. by rewrite str_app_cons, <- Er.
Qed.

Lemma os_split_above (p head tail : string) :
  os_split p = (head, tail) → all_slashes head = false →
  ∃ r, p = head +:+ "/" +:+ r.
Proof.
  unfold os_split. destruct (cut_last_slash p) as [h t] eqn:E.
  destruct (all_slashes h) eqn:Hh; intros [= <- <-] Hall; [congruence|].
  destruct (cut_last_slash_head _ _ _ E) as [->|Hend]; [done|].
  destruct (rstrip_slash_proper h Hh Hend) as [r Er].
  exists (r +:+ t). apply cut_last_slash_app in E.
  rewrite E, Er at 1. by rewrite !str_app_assoc.
Qed.

Lemma os_split_whole (p head : string) :
  os_split p = (head, "") → ∃ r, p = head +:+ r.
Proof.
  unfold os_split. destruct (cut_last_slash p) as [h t] eqn:E.
  intros [= <- ->]. apply cut_last_slash_app in E. rewrite str_app_nil_r in E.
  subst p. destruct (all_slashes h); [|apply rstrip_slash_prefix].
  exists "". by rewrite str_app_nil_r.
Qed.

(** The head [os.makedirs] turns to lies above the path. *)
Lemma makedirs_head_above (name head : string) :
  makedirs_head name = Some head → ∃ r, name = head +:+ "/" +:+ r.
Proof.
  unfold makedirs_head. destruct (os_split name) as [h1 t1] eqn:E1.
  destruct (String.eqb_spec t1 "") as [->|_].
  - destruct (os_split h1) as [h2 t2] eqn:E2.
    destruct (String.eqb h2 "" || String.eqb t2 "" || all_slashes h2) eqn:C;
      [done|].
    intros [= <-]. apply orb_false_elim in C as [_ Hall].
    destruct (os_split_above _ _ _ E2 Hall) as [r ->].
    destruct (os_split_whole _ _ E1) as [r' ->].
    exists (r +:+ r'). by rewrite !str_app_assoc.
  - destruct (String.eqb h1 "" || String.eqb t1 "" || all_slashes h1) eqn:C;
      [done|].
    intros [= <-]. apply orb_false_elim in C as [_ Hall].
    by apply (os_split_above _ _ _ E1).
Qed.

Lemma makedirs_head_shorter (name head : string) :
  makedirs_head name = Some head → String.length head < String.length name.
Proof.
  intros [r ->]%makedirs_head_above. rewrite !str_length_app. cbn. lia.
Qed.

Lemma in_dir_intro (dir rest : string) : in_dir dir (dir +:+ "/" +:+ rest) = true.
Proof.
  unfold in_dir, startswith. rewrite <- str_app_assoc. by rewrite lit_app.
Qed.

Lemma in_dir_elim (dir p : string) :
  in_dir dir p = true → ∃ rest, p = dir +:+ "/" +:+ rest.
Proof.
  unfold in_dir, startswith.
  destruct (lit (dir +:+ "/") p) as [rest|] eqn:E; [|done].
  intros _. exists rest. apply lit_inv in E. by rewrite E, str_app_assoc.
Qed.

Lemma in_dir_trans (a b c : string) :
  in_dir a b = true → in_dir b c = true → in_dir a c = true.
Proof.
  intros [r1 ->]%in_dir_elim [r2 ->]%in_dir_elim.
  rewrite !str_app_assoc. apply in_dir_intro.
Qed.

Lemma in_dir_shorter (a b : string) :
  in_dir a b = true → String.length a < String.length b.
Proof. intros [r ->]%in_dir_elim. rewrite !str_length_app. cbn. lia. Qed.

(** Above [dest/name], for a name without a slash, lie [dest] and what lies
    above [dest]. *)
Lemma in_dir_child (p dest name : string) :
  mem "/" name = false →
  in_dir p (dest +:+ "/" +:+ name) = true → p = dest ∨ in_dir p dest = true.
Proof.
  intros Hname [rest E]%in_dir_elim. revert p E.
  induction dest as [|c dest IH]; intros p E.
  - destruct p as [|x p]; [by left|]. cbn in E. injection E as _ E.
    subst name. rewrite mem_app in Hname. cbn in Hname.
    by rewrite orb_true_r in Hname.
  - destruct p as [|x p].
    + cbn in E. injection E as Hc _. subst c. by right.
    + cbn in E. injection E as Hc E. subst x.
      destruct (IH p E) as [->|[r ->]%in_dir_elim]; [by left|right].
      rewrite <- str_app_cons. apply in_dir_intro.
Qed.

Lemma mkdir_spec (name : string) (fs fs' : gmap string node) :
  mkdir name fs = Some fs' →
  fs' !! name = Some Dir ∧
  ∀ p, fs' !! p = fs !! p ∨ (p = name ∧ fs !! p = None ∧ fs' !! p = Some Dir).
Proof.
  unfold mkdir. destruct (fs !! name) as [[t|]|] eqn:E; intros [= <-].
  - split; [done|]. by left.
  - split; [by rewrite lookup_insert_eq|]. intros p.
    destruct (decide (p = name)) as [->|Hne].
    + right. by rewrite lookup_insert_eq.
    + left. by rewrite lookup_insert_ne.
Qed.

(** What a successful [os.makedirs] leaves: the path is a directory, and
    whatever differs from before was missing, is a directory now, and is the
    path or lies above it. *)
Lemma makedirs_go_spec (fuel : nat) (name : string) (fs fs' : gmap string node) :
  makedirs_go fuel name fs = Some fs' →
  fs' !! name = Some Dir ∧
  ∀ p, fs' !! p = fs !! p ∨
       ((p = name ∨ in_dir p name = true) ∧ fs !! p = None ∧ fs' !! p = Some Dir).
Proof.
  revert name fs fs'. induction fuel as [|fuel IH]; intros name fs fs'.
  - cbn [makedirs_go]. intros H.
    assert (mkdir name fs = Some fs') as Hm by by destruct (makedirs_head name).
    destruct (mkdir_spec _ _ _ Hm) as [H1 H2]. split; [done|].
    intros p. destruct (H2 p) as [?|(-> & ? & ?)]; [by left|right; auto].
  - cbn [makedirs_go]. destruct (makedirs_head name) as [head|] eqn:Hh.
    2: { intros Hm. destruct (mkdir_spec _ _ _ Hm) as [H1 H2]. split; [done|].
         intros p. destruct (H2 p) as [?|(-> & ? & ?)]; [by left|right; auto]. }
    destruct (makedirs_head_above _ _ Hh) as [r Er].
    assert (in_dir head name = true) as Habove
      by (rewrite Er; apply in_dir_intro).
    destruct (fs !! head) as [[t|]|] eqn:Ehead; [done| |].
    + intros Hm. destruct (mkdir_spec _ _ _ Hm) as [H1 H2]. split; [done|].
      intros p. destruct (H2 p) as [?|(-> & ? & ?)]; [by left|right; auto].
    + destruct (makedirs_go fuel head fs) as [fs1|] eqn:Hgo; [|done].
      intros Hm. destruct (mkdir_spec _ _ _ Hm) as [H1 H2]. split; [done|].
      destruct (IH _ _ _ Hgo) as [_ H3].
      intros p. destruct (H2 p) as [E|(-> & E1 & E2)].
      * rewrite E. destruct (H3 p) as [?|([->|Hp] & ? & ?)]; [by left|right..].
        -- auto.
        -- split; [right; by eapply in_dir_trans|done].
      * destruct (H3 name) as [E3|(_ & E3 & _)]; right; split; auto;
          split; congruence.
Qed.

(** More fuel than the length of the path changes nothing. *)
Lemma makedirs_go_fuel (fuel : nat) (name : string) (fs : gmap string node) :
  String.length name ≤ fuel →
  makedirs_go fuel name fs = makedirs_go (String.length name) name fs.
Proof.
  remember (String.length name) as n eqn:Hn. revert name fuel fs Hn.
  induction (lt_wf n) as [n _ IH]. intros name fuel fs -> Hle.
  destruct fuel as [|fuel]; [by replace (String.length name) with 0 by lia|].
  destruct (String.length name) as [|m] eqn:Hlen.
  - cbn [makedirs_go]. destruct (makedirs_head name) as [head|] eqn:Hh; [|done].
    apply makedirs_head_shorter in Hh. lia.
  - cbn [makedirs_go]. destruct (makedirs_head name) as [head|] eqn:Hh; [|done].
    pose proof (makedirs_head_shorter _ _ Hh) as Hlt.
    destruct (fs !! head) as [[t|]|]; try done.
    rewrite (IH (String.length head) ltac:(lia) head fuel fs eq_refl ltac:(lia)).
    rewrite (IH (String.length head) ltac:(lia) head m fs eq_refl ltac:(lia)).
    done.
Qed.

End PathFacts.

(** ** The matcher *)

Section RegexFacts.
Import Text Regex Spec.

Lemma all_in_any (s : string) : all_in AnyChar s = true.
Proof. induction s; simpl; auto. Qed.

Lemma all_in_none_of1 c (s : string) :
  mem c s = false → all_in (NoneOf [c]) s = true.
Proof.
  induction s as [|x s IH]; simpl; [done|].
  intros [H1 H2]%orb_false_elim. rewrite (IH H2), Ascii.eqb_sym, H1. done.
Qed.

Lemma all_in_none_of2 c1 c2 (s : string) :
  mem c1 s = false → mem c2 s = false → all_in (NoneOf [c1; c2]) s = true.
Proof.
  induction s as [|x s IH]; simpl; [done|].
  intros [H1 H2]%orb_false_elim [H3 H4]%orb_false_elim.
  rewrite (IH H2 H4), (Ascii.eqb_sym x), H1, (Ascii.eqb_sym x), H3. done.
Qed.

(** The star fails when the continuation fails at every point it can stop. *)
Lemma star_none {A} c (s : string) (k : string → option A) :
  (∀ v1 v2, s = v1 +:+ v2 → all_in c v1 = true → k v2 = None) →
  star c s k = None.
Proof.
  induction s as [|x s IH]; intros H; simpl.
  - by apply (H "" "").
  - assert (k (String x s) = None) as Hk by by apply (H "" (String x s)).
    destruct (cls_test c x) eqn:T; [|done].
    rewrite IH; [done|].
    intros v1 v2 -> Hv1. apply (H (String x v1) v2); [done|].
    simpl. by rewrite T.
Qed.

(** Greedy choice: the star stops at the last point where the continuation
    succeeds. *)
Lemma star_greedy {A} c (u v : string) (k : string → option A) r :
  all_in c u = true → k v = Some r →
  (∀ v1 v2, v = v1 +:+ v2 → v1 ≠ "" → all_in c v1 = true → k v2 = None) →
  star c (u +:+ v) k = Some r.
Proof.
  intros Hu Hk Hlater. induction u as [|x u IH]; simpl in *.
  - destruct v as [|y v]; simpl; [done|].
    destruct (cls_test c y) eqn:T; [|done].
    rewrite star_none; [done|].
    intros v1 v2 -> Hv1. apply (Hlater (String y v1) v2); [done..|].
    simpl. by rewrite T.
  - apply andb_prop in Hu as [-> Hu]. by rewrite IH.
Qed.

(** How [run] goes through a sequence, one equation per kind of head. *)
Lemma run_seq_lit p r (s : string) caps k :
  run (Lit p · r) (p +:+ s) caps k = run r s caps k.
Proof. cbn [run]. by rewrite lit_app. Qed.

Lemma run_seq_lit_none p r (s : string) caps k :
  lit p s = None → run (Lit p · r) s caps k = None.
Proof. intros H. cbn [run]. by rewrite H. Qed.

Lemma run_lit p (s : string) caps k : run (Lit p) (p +:+ s) caps k = k s caps.
Proof. cbn [run]. by rewrite lit_app. Qed.

Lemma run_lit_none p (s : string) caps k :
  lit p s = None → run (Lit p) s caps k = None.
Proof. intros H. cbn [run]. by rewrite H. Qed.

Lemma run_seq_set c r x (s : string) caps k :
  cls_test c x = true → run (Set1 c · r) (String x s) caps k = run r s caps k.
Proof. intros H. cbn [run]. by rewrite H. Qed.

Lemma run_seq_star c r (u v : string) caps k res :
  all_in c u = true → run r v caps k = Some res →
  (∀ v1 v2, v = v1 +:+ v2 → v1 ≠ "" → all_in c v1 = true →
            run r v2 caps k = None) →
  run (Star c · r) (u +:+ v) caps k = Some res.
Proof. intros Hu Hv Hlater. cbn [run]. by apply star_greedy. Qed.

Lemma run_seq_grp_star c r (u v : string) caps k res :
  all_in c u = true → run r v (caps ++ [u]) k = Some res →
  (∀ v1 v2 m, v = v1 +:+ v2 → v1 ≠ "" → all_in c v1 = true →
              run r v2 m k = None) →
  run (Grp (Star c) · r) (u +:+ v) caps k = Some res.
Proof.
  intros Hu Hv Hlater. cbn [run]. apply star_greedy; [done| |].
  - by rewrite take_app.
  - intros v1 v2 E Hv1 Hall. by apply (Hlater v1 v2).
Qed.

(** The converse: where a star that succeeds or fails has stopped. *)
Lemma star_none_inv {A} c (s : string) (k : string → option A) :
  star c s k = None →
  ∀ v1 v2, s = v1 +:+ v2 → all_in c v1 = true → k v2 = None.
Proof.
  induction s as [|x s IH]; cbn [star]; intros H v1 v2 E Hv1.
  - destruct v1; [|done]. by destruct v2.
  - destruct v1 as [|y v1].
    + cbn in E. subst v2. destruct (cls_test c x); [|done].
      by destruct (star c s k).
    + cbn in E. injection E as <- ->. cbn in Hv1.
      apply andb_prop in Hv1 as [T Hv1]. rewrite T in H.
      destruct (star c (v1 +:+ v2) k) eqn:Hs; [done|].
      by apply (IH eq_refl v1 v2).
Qed.

Lemma star_inv {A} c (s : string) (k : string → option A) r :
  star c s k = Some r →
  ∃ u v, s = u +:+ v ∧ all_in c u = true ∧ k v = Some r ∧
    ∀ v1 v2, v = v1 +:+ v2 → v1 ≠ "" → all_in c v1 = true → k v2 = None.
Proof.
  induction s as [|x s IH]; cbn [star]; intros H.
  - exists "", "". repeat split; try done. intros [|] ? ?; done.
  - destruct (cls_test c x) eqn:T.
    + destruct (star c s k) as [r'|] eqn:Hs.
      * destruct (IH H) as (u & v & -> & Hu & Hk & Hlater).
        exists (String x u), v. cbn. rewrite T. by eauto.
      * exists "", (String x s). repeat split; try done.
        intros [|y v1] v2 E Hv1 Hall; [done|].
        cbn in E. injection E as <- ->. cbn in Hall.
        apply andb_prop in Hall as [_ Hall].
        by apply (star_none_inv c _ k Hs v1 v2).
    + exists "", (String x s). repeat split; try done.
      intros [|y v1] v2 E Hv1 Hall; [done|].
      cbn in E. injection E as <- ->. cbn in Hall. by rewrite T in Hall.
Qed.

Lemma star_some {A} c (u v : string) (k : string → option A) :
  all_in c u = true → is_Some (k v) → is_Some (star c (u +:+ v) k).
Proof.
  intros Hu Hk. induction u as [|x u IH]; cbn in *.
  - destruct v as [|y v]; cbn; [done|].
    destruct (cls_test c y); [|done]. by destruct (star c v k).
  - apply andb_prop in Hu as [-> Hu]. by destruct (IH Hu) as [r ->].
Qed.

Lemma all_in_none_of1_inv c (s : string) :
  all_in (NoneOf [c]) s = true → mem c s = false.
Proof.
  induction s as [|x s IH]; cbn; [done|].
  intros [H1 H2]%andb_prop. rewrite (IH H2), Ascii.eqb_sym.
  by destruct (Ascii.eqb x c).
Qed.

Lemma all_in_none_of2_inv c1 c2 (s : string) :
  all_in (NoneOf [c1; c2]) s = true → mem c1 s = false ∧ mem c2 s = false.
Proof.
  induction s as [|x s IH]; cbn; [done|].
  intros [H1 H2]%andb_prop. destruct (IH H2) as [-> ->].
  rewrite (Ascii.eqb_sym c1), (Ascii.eqb_sym c2).
  by destruct (Ascii.eqb x c1), (Ascii.eqb x c2).
Qed.

Lemma search_inv r (s : string) m :
  search r s = Some m →
  ∃ pre rest, s = pre +:+ rest ∧ match_here r rest = Some m ∧
    ∀ a b, pre = a +:+ b → b ≠ "" → match_here r (b +:+ rest) = None.
Proof.
  induction s as [|x s IH]; cbn [search]; intros H.
  - destruct (match_here r "") eqn:E; [|done]. injection H as ->.
    exists "", "". repeat split; try done. by intros [|] [|].
  - destruct (match_here r (String x s)) eqn:E.
    + injection H as ->. exists "", (String x s). repeat split; try done.
      intros [|] [|]; done.
    + destruct (IH H) as (pre & rest & -> & Hm & Hearlier).
      exists (String x pre), rest. repeat split; try done.
      intros [|y a] b Eq Hb.
      * cbn in Eq. by subst b.
      * cbn in Eq. injection Eq as <- ->. by apply (Hearlier a b).
Qed.

Lemma search_here r (s : string) caps :
  match_here r s = Some caps → search r s = Some caps.
Proof. intros H. destruct s; simpl; by rewrite H. Qed.

Lemma search_skip r (pre rest : string) :
  (∀ a b, pre = a +:+ b → b ≠ "" → match_here r (b +:+ rest) = None) →
  search r (pre +:+ rest) = search r rest.
Proof.
  induction pre as [|x pre IH]; intros H; simpl; [done|].
  rewrite <- str_app_cons.
  rewrite (H "" (String x pre)); [|done..].
  apply IH. intros a b -> Hb. by apply (H (String x a) b).
Qed.

(** A pattern that starts with a literal whose first character occurs only
    once in it is found at the first occurrence of the literal, when it
    matches there. *)
Lemma search_first_literal c q r (pre rest : string) caps :
  mem c q = false → contains (String c q) pre = false →
  run r rest [] (λ _ m, Some m) = Some caps →
  search (Lit (String c q) · r) (pre +:+ String c q +:+ rest) = Some caps.
Proof.
  intros Hm Hc Hr. rewrite search_skip.
  - apply search_here. unfold match_here. by rewrite run_seq_lit.
  - intros a b -> Hb. unfold match_here. apply run_seq_lit_none.
    by apply (no_earlier_occurrence c q (a +:+ b) a b rest).
Qed.

End RegexFacts.

(** ** The two patterns *)

Section PatternFacts.
Import Text Regex Classifier Spec.

(** The tail of both patterns: the rest of an opening tag, its ">", a group
    of any characters and the closing tag [close], matched against a text
    whose last [close] is the one after [inner]. *)
Lemma run_tag_body c q caps (attrs inner post : string) :
  mem c q = false → contains (String c q) post = false →
  mem ">" attrs = false →
  run (Star (NoneOf [">"%char]) · Lit ">" · Grp (Star AnyChar) · Lit (String c q))
      (attrs +:+ ">" +:+ inner +:+ String c q +:+ post) caps (λ _ m, Some m)
  = Some (caps ++ [inner]).
Proof.
  intros Hm Hc Ha.
  apply run_seq_star.
  - by apply all_in_none_of1.
  - rewrite run_seq_lit. apply run_seq_grp_star.
    + apply all_in_any.
    + by rewrite run_lit.
    + intros v1 v2 m E Hv1 _. apply run_lit_none.
      by apply (no_later_occurrence c q post v1 v2).
  - intros v1 v2 E Hv1 Hall. destruct v1 as [|x v1]; [done|].
    simpl in E. injection E as <- _. done.
Qed.

Lemma metadataPat_match (pre attrs inner post : string) :
  contains "<metadata" pre = false →
  mem ">" attrs = false →
  contains "</metadata>" post = false →
  search metadataPat
    (pre +:+ "<metadata" +:+ attrs +:+ ">" +:+ inner +:+ "</metadata>" +:+ post)
  = Some [inner].
Proof.
  intros Hpre Ha Hpost. unfold metadataPat.
  apply (search_first_literal "<" "metadata"); [done..|].
  by apply (run_tag_body "<" "/metadata>" []).
Qed.

(** The first ">" of a text that has one. *)
Lemma first_gt (y t : string) :
  ∃ u t', y +:+ ">" +:+ t = u +:+ ">" +:+ t' ∧ mem ">" u = false ∧
          ∃ w, t' = w +:+ t.
Proof.
  induction y as [|c y (u & t' & E & Hu & w & Hw)].
  - exists "", t. repeat split. by exists "".
  - destruct (Ascii.eqb_spec ">"%char c) as [<-|Hc].
    + exists "", (y +:+ ">" +:+ t). repeat split.
      exists (y +:+ ">"). by rewrite str_app_assoc.
    + exists (String c u), t'. rewrite (str_app_cons c y), (str_app_cons c u), E.
      repeat split; [|by exists w].
      cbn [mem]. apply Ascii.eqb_neq in Hc. by rewrite Hc.
Qed.

(** An opening metadata tag with a closing one somewhere after its ">" is
    matched. *)
Lemma metadataPat_here (y z post : string) :
  is_Some (match_here metadataPat
             ("<metadata" +:+ y +:+ ">" +:+ z +:+ "</metadata>" +:+ post)).
Proof.
  destruct (first_gt y (z +:+ "</metadata>" +:+ post))
    as (u & t' & -> & Hu & w & ->).
  unfold match_here, metadataPat. rewrite run_seq_lit. cbn [run].
  apply star_some; [by apply all_in_none_of1|].
  rewrite lit_app. rewrite <- str_app_assoc.
  apply star_some; [apply all_in_any|].
  by rewrite lit_app.
Qed.

(** Every match of [metadataPat] runs from the first opening metadata tag to
    the last closing metadata tag. *)
Lemma metadataPat_inv (text : string) m :
  search metadataPat text = Some m →
  ∃ pre attrs inner post,
    text = pre +:+ "<metadata" +:+ attrs +:+ ">" +:+ inner +:+
           "</metadata>" +:+ post ∧
    contains "<metadata" pre = false ∧ mem ">" attrs = false ∧
    contains "</metadata>" post = false ∧ m = [inner].
Proof.
  intros (pre & rest & -> & Hm & Hearlier)%search_inv.
  unfold match_here, metadataPat in Hm. cbn [run] in Hm.
  destruct (lit "<metadata" rest) as [r1|] eqn:L1; [|done].
  apply lit_inv in L1 as ->.
  apply star_inv in Hm as (attrs & v & -> & Hattrs & Hm & _).
  destruct (lit ">" v) as [r2|] eqn:L2; [|done].
  apply lit_inv in L2 as ->.
  apply star_inv in Hm as (inner & v & -> & _ & Hm & Hlater).
  destruct (lit "</metadata>" v) as [post|] eqn:L3; [|done].
  apply lit_inv in L3 as ->.
  rewrite take_app in Hm. injection Hm as <-.
  exists pre, attrs, inner, post. split; [done|].
  split; [|split; [by apply all_in_none_of1_inv|split; [|done]]].
  - destruct (contains "<metadata" pre) eqn:C; [|done].
    apply contains_elim in C as (a & b & ->).
    specialize (Hearlier a ("<metadata" +:+ b) eq_refl).
    rewrite !str_app_assoc in Hearlier.
    destruct (metadataPat_here (b +:+ "<metadata" +:+ attrs) inner post) as [m' Hm'].
    rewrite !str_app_assoc in Hm'. rewrite Hm' in Hearlier.
    by specialize (Hearlier ltac:(done)).
  - destruct (contains "</metadata>" post) eqn:C; [|done].
    apply contains_elim in C as (a & b & ->).
    specialize (Hlater ("</metadata>" +:+ a) ("</metadata>" +:+ b)).
    rewrite lit_app in Hlater.
    rewrite str_app_assoc in Hlater.
    by specialize (Hlater eq_refl ltac:(done) (all_in_any _)).
Qed.

Lemma errorPat_match (pre a code b msg post : string) (q1 q2 : ascii) :
  contains "<error" pre = false →
  is_quote q1 = true → is_quote q2 = true →
  mem squote code = false → mem dquote code = false →
  mem ">" b = false →
  contains "code="
    (code +:+ String q2 (b +:+ ">" +:+ msg +:+ "</error>" +:+ post)) = false →
  contains "</error>" post = false →
  search errorPat
    (pre +:+ "<error" +:+ a +:+ "code=" +:+
     String q1 (code +:+ String q2 (b +:+ ">" +:+ msg +:+ "</error>" +:+ post)))
  = Some [code; msg].
Proof.
  intros Hpre Hq1 Hq2 Hc1 Hc2 Hb Hlast Hpost. unfold errorPat.
  apply (search_first_literal "<" "error"); [done..|].
  apply run_seq_star.
  - apply all_in_any.
  - rewrite run_seq_lit, run_seq_set by done.
    apply run_seq_grp_star.
    + by apply all_in_none_of2.
    + rewrite run_seq_set by done.
      by apply (run_tag_body "<" "/error>" [code]).
    + intros v1 v2 m E Hv1 Hall. destruct v1 as [|x v1]; [done|].
      simpl in E. injection E as <- _. simpl in Hall.
      unfold is_quote in Hq2. simpl in Hq2. by rewrite Hq2 in Hall.
  - intros v1 v2 E Hv1 _. apply run_seq_lit_none.
    eapply (no_later_occurrence "c" "ode="); [done| |exact E|done].
    rewrite contains_cons_ne; [done|].
    destruct (Ascii.eqb_spec "c"%char q1) as [<-|]; [|done].
    by vm_compute in Hq1.
Qed.

(** An opening error tag with a quoted code attribute, the end of the tag
    and a closing error tag somewhere after it is matched. *)
Lemma errorPat_here (y code b msg post : string) (q1 q2 : ascii) :
  is_quote q1 = true → is_quote q2 = true →
  mem squote code = false → mem dquote code = false → mem ">" b = false →
  is_Some (match_here errorPat
    ("<error" +:+ y +:+ "code=" +:+
     String q1 (code +:+ String q2 (b +:+ ">" +:+ msg +:+ "</error>" +:+ post)))).
Proof.
  intros Hq1 Hq2 Hc1 Hc2 Hb.
  unfold match_here, errorPat. rewrite run_seq_lit. cbn [run].
  apply star_some; [apply all_in_any|].
  rewrite lit_app. unfold is_quote in Hq1, Hq2. rewrite Hq1.
  apply star_some; [by apply all_in_none_of2|].
  rewrite Hq2.
  apply star_some; [by apply all_in_none_of1|].
  rewrite lit_app.
  apply star_some; [apply all_in_any|].
  by rewrite lit_app.
Qed.

(** Every match of [errorPat] starts at the first "<error", takes its code
    from a quoted code attribute after it and its message from the end of
    that tag to the last closing error tag. *)
Lemma errorPat_inv (text : string) m :
  search errorPat text = Some m →
  ∃ pre a code b msg post q1 q2,
    text = pre +:+ "<error" +:+ a +:+ "code=" +:+
           String q1 (code +:+ String q2 (b +:+ ">" +:+ msg +:+
                                          "</error>" +:+ post)) ∧
    contains "<error" pre = false ∧
    is_quote q1 = true ∧ is_quote q2 = true ∧
    mem squote code = false ∧ mem dquote code = false ∧ mem ">" b = false ∧
    contains "</error>" post = false ∧ m = [code; msg].
Proof.
  intros (pre & rest & -> & Hm & Hearlier)%search_inv.
  unfold match_here, errorPat in Hm. cbn [run] in Hm.
  destruct (lit "<error" rest) as [r1|] eqn:L1; [|done].
  apply lit_inv in L1 as ->.
  apply star_inv in Hm as (a & v & -> & _ & Hm & _).
  destruct (lit "code=" v) as [r2|] eqn:L2; [|done].
  apply lit_inv in L2 as ->.
  destruct r2 as [|q1 r2]; [done|].
  destruct (cls_test (OneOf [squote; dquote]) q1) eqn:Hq1; [|done].
  apply star_inv in Hm as (code & v & -> & Hcode & Hm & _).
  destruct v as [|q2 v]; [done|].
  destruct (cls_test (OneOf [squote; dquote]) q2) eqn:Hq2; [|done].
  apply star_inv in Hm as (b & v' & -> & Hb & Hm & _).
  destruct (lit ">" v') as [r3|] eqn:L3; [|done].
  apply lit_inv in L3 as ->.
  apply star_inv in Hm as (msg & v'' & -> & _ & Hm & Hlater).
  destruct (lit "</error>" v'') as [post|] eqn:L4; [|done].
  apply lit_inv in L4 as ->.
  rewrite !take_app in Hm. injection Hm as <-.
  apply all_in_none_of2_inv in Hcode as [Hc1 Hc2].
  apply all_in_none_of1_inv in Hb.
  assert (contains "</error>" post = false) as Hpost.
  { destruct (contains "</error>" post) eqn:C; [|done].
    apply contains_elim in C as (a' & b' & ->).
    specialize (Hlater ("</error>" +:+ a') ("</error>" +:+ b')).
    rewrite lit_app, str_app_assoc in Hlater.
    by specialize (Hlater eq_refl ltac:(done) (all_in_any _)). }
  assert (contains "<error" pre = false) as Hpre.
  { destruct (contains "<error" pre) eqn:C; [|done].
    apply contains_elim in C as (a' & b' & ->).
    specialize (Hearlier a' ("<error" +:+ b') eq_refl).
    rewrite !str_app_assoc in Hearlier.
    destruct (errorPat_here (b' +:+ "<error" +:+ a) code b msg post q1 q2)
      as [m' Hm']; try done.
    rewrite !str_app_assoc in Hm'. rewrite Hm' in Hearlier.
    by specialize (Hearlier ltac:(done)). }
  exists pre, a, code, b, msg, post, q1, q2. by repeat split.
Qed.

End PatternFacts.

(** ** One identifier *)

Section DocFacts.
Import Text Regex Classifier OS Harvest Spec.
Variable env : Env.

Lemma deliver_text_error_nonempty text e :
  deliver_text text = Fail e → String.eqb e "" = false.
Proof.
  unfold deliver_text. intros H.
  repeat match type of H with
         | (if ?c then _ else _) = _ => destruct c
         | match ?c with Some _ => _ | None => _ end = _ => destruct c
         end; try discriminate; injection H as <-; try reflexivity.
  by destruct (group 1 l).
Qed.

Lemma harvest_doc_eq (repoTask : RepoTask) (setDest docId : string) (w : World) :
  let docDest := docDest_of setDest docId in
  let docUrl :=
    docUrl_of (get (task_url repoTask) "") docId (get (task_meta repoTask) "") in
  let after fs := mkWorld fs (calls w ++ [(docDest, docUrl)]) (S (tick w)) in
  harvest_doc env repoTask setDest docId w =
  match files w !! docDest with
  | Some Dir => (Raised IsADirectoryError, after (files w))
  | _ =>
      match response env w docDest docUrl with
      | Some text =>
          match deliver_text text with
          | Rewrite payload => (Ok false, after (<[docDest := File payload]> (files w)))
          | Fail _ => (Ok true, after (delete docDest (files w)))
          end
      | None => (Ok true, after (delete docDest (files w)))
      end
  end.
Proof.
  intros docDest docUrl after.
  unfold harvest_doc, response.
  fold docDest. fold docUrl.
  unfold bind, try_except, run_curl, deliver, bind, open_read, open_write,
    path_exists, unlink, ret.
  destruct (curl env (tick w) docDest docUrl) as [text| |] eqn:Hcurl;
    destruct (files w !! docDest) as [[old|]|] eqn:Hold;
    repeat progress (cbn; rewrite ?lookup_insert_eq, ?Hold); try reflexivity.
  all: try match goal with
           | |- context [deliver_text ?t] =>
               destruct (deliver_text t) as [payload|e] eqn:Hd;
               repeat progress (cbn; rewrite ?lookup_insert_eq, ?Hold,
                                  ?(deliver_text_error_nonempty _ _ Hd))
           end.
  all: unfold after;
    rewrite ?insert_insert_eq, ?delete_insert_eq, ?(delete_id _ _ Hold);
    try reflexivity.
Qed.

End DocFacts.

(** ** Sets, tasks, runs *)

Section LoopFacts.
Import Text Regex Classifier OS Harvest Spec.
Variable env : Env.

Lemma check_dir_eq (dest : string) (w : World) :
  check_dir env dest w =
  match files w !! dest with
  | Some Dir => (Ok true, w)
  | Some (File _) => (Ok false, w)
  | None =>
      let after fs := mkWorld fs (calls w) (S (tick w)) in
      if makedirs_ok env (tick w) dest then
        match makedirs_go (String.length dest) dest (files w) with
        | Some fs => (Ok true, after fs)
        | None => (Ok false, after (files w))
        end
      else (Ok false, after (files w))
  end.
Proof.
  unfold check_dir, bind, try_except, path_exists, path_isdir, makedirs, ret.
  destruct (files w !! dest) as [[t|]|] eqn:E; cbn; rewrite ?E; try reflexivity.
  destruct (makedirs_ok env (tick w) dest); [|done].
  by destruct (makedirs_go (String.length dest) dest (files w)).
Qed.

(** The directory check: it returns, makes no curl call, says whether the
    path is a directory afterwards, and changes nothing but paths that were
    missing and are directories now: the path and paths above it. *)
Lemma check_dir_spec (dest : string) (w : World) :
  ∃ ok w', check_dir env dest w = (Ok ok, w') ∧
    calls w' = calls w ∧
    (ok = true ↔ files w' !! dest = Some Dir) ∧
    (is_Some (files w !! dest) → w' = w) ∧
    ∀ p, files w' !! p = files w !! p ∨
         ((p = dest ∨ in_dir p dest = true) ∧
          files w !! p = None ∧ files w' !! p = Some Dir).
Proof.
  rewrite check_dir_eq. destruct (files w !! dest) as [[t|]|] eqn:E.
  - exists false, w. rewrite E. repeat split; try done. by left.
  - exists true, w. rewrite E. repeat split; try done. by left.
  - cbv zeta. destruct (makedirs_ok env (tick w) dest).
    + destruct (makedirs_go (String.length dest) dest (files w)) as [fs|] eqn:Hgo.
      * destruct (makedirs_go_spec _ _ _ _ Hgo) as [Hdir Hnew].
        exists true. eexists. split; [done|]. cbn [files calls].
        repeat split; try done; by intros [? ?].
      * exists false. eexists. split; [done|]. cbn [files calls]. rewrite E.
        repeat split; try done; try (by intros [? ?]); by left.
    + exists false. eexists. split; [done|]. cbn [files calls]. rewrite E.
      repeat split; try done; try (by intros [? ?]); by left.
Qed.

(** [deliver] on a path that holds a regular file. *)
Lemma deliver_eq (path text : string) w :
  files w !! path = Some (File text) →
  deliver path w =
  match deliver_text text with
  | Rewrite payload =>
      (Ok None, mkWorld (<[path := File payload]> (files w)) (calls w) (tick w))
  | Fail error => (Ok (Some error), w)
  end.
Proof.
  intros H. unfold deliver, bind, open_read, open_write, ret. rewrite H.
  destruct (deliver_text text); [by rewrite H | done].
Qed.

Lemma harvest_doc_flag (repoTask : RepoTask) (setDest docId : string) w failed w' :
  harvest_doc env repoTask setDest docId w = (Ok failed, w') →
  failed = doc_fails env w (docDest_of setDest docId)
             (docUrl_of (get (task_url repoTask) "") docId (get (task_meta repoTask) "")).
Proof.
  rewrite harvest_doc_eq. unfold doc_fails.
  destruct (files w !! _) as [[?|]|]; try discriminate;
    destruct (response _ _ _ _) as [body|]; try (by intros [= <- _]);
    destruct (deliver_text body); by intros [= <- _].
Qed.

(** The loop variables of [for docId in ids] after the loop. *)
Lemma harvest_ids_failing (repoTask : RepoTask) (setDest : string) ids st w :
  harvest_ids env repoTask setDest ids st w =
  match failing_ids env repoTask setDest ids w with
  | (Ok k, w') => (Ok (if k =? 0 then st else (false, snd st + k)), w')
  | (Raised e, w') => (Raised e, w')
  end.
Proof.
  revert st w. induction ids as [|docId rest IH]; intros st w; cbn.
  - by destruct st.
  - unfold bind, ret, peek.
    destruct (harvest_doc env repoTask setDest docId w) as [[failed|e] w1] eqn:Hd;
      [|done].
    apply harvest_doc_flag in Hd as <-.
    rewrite IH.
    destruct (failing_ids env repoTask setDest rest w1) as [[k|e] w2]; [|done].
    destruct failed; cbn; [|done].
    destruct k; cbn; repeat f_equal; lia.
Qed.

Lemma harvest_sets_observe (repoTask : RepoTask) (dest : string) sets good w :
  harvest_sets env repoTask dest sets good w =
  match observe_sets env repoTask dest sets w with
  | (Ok rs, w') => (Ok (good && forallb set_ok rs), w')
  | (Raised e, w') => (Raised e, w')
  end.
Proof.
  revert good w. induction sets as [|repoSet rest IH]; intros good w; cbn.
  - by rewrite andb_true_r.
  - unfold bind, ret.
    destruct (check_dir env _ w) as [[[|]|e] w1]; cbn; [| |done].
    + rewrite harvest_ids_failing.
      destruct (failing_ids _ _ _ _ w1) as [[k|e] w2]; [|done].
      rewrite IH.
      destruct (observe_sets env repoTask dest rest w2) as [[rs|e] w3]; [|done].
      unfold set_ok at 1. cbn. by destruct k, good.
    + rewrite IH.
      destruct (observe_sets env repoTask dest rest w1) as [[rs|e] w3]; [|done].
      unfold set_ok at 1. cbn. by rewrite andb_false_r.
Qed.

Lemma harvest_observe (repoTask : RepoTask) w :
  harvest env repoTask w =
  match observe env repoTask w with
  | (Ok r, w') => (Ok (task_ok r), w')
  | (Raised e, w') => (Raised e, w')
  end.
Proof.
  unfold harvest, observe, bind, ret.
  destruct (check_dir env _ w) as [[[|]|e] w1]; cbn; [| done..].
  rewrite harvest_sets_observe.
  by destruct (observe_sets _ _ _ _ w1) as [[rs|e] w2].
Qed.

Lemma harvestAll_loop_observe repoTasks good w :
  harvestAll_loop env repoTasks good w =
  match observe_all env repoTasks w with
  | (Ok rs, w') => (Ok (good && forallb task_ok rs), w')
  | (Raised e, w') => (Raised e, w')
  end.
Proof.
  revert good w. induction repoTasks as [|repoTask rest IH]; intros good w; cbn.
  - by rewrite andb_true_r.
  - unfold bind, ret. rewrite harvest_observe.
    destruct (observe env repoTask w) as [[r|e] w1]; [|done].
    rewrite IH.
    destruct (observe_all env rest w1) as [[rs|e] w2]; [|done].
    cbn. by destruct (task_ok r), good.
Qed.

Lemma observe_all_length repoTasks w rs w' :
  observe_all env repoTasks w = (Ok rs, w') → length rs = length repoTasks.
Proof.
  revert w rs w'. induction repoTasks as [|repoTask rest IH]; intros w rs w'; cbn.
  - by intros [= <- _].
  - unfold bind, ret.
    destruct (observe env repoTask w) as [[r|e] w1]; [|done].
    destruct (observe_all env rest w1) as [[rs'|e] w2] eqn:E; [|done].
    intros [= <- _]. cbn. by rewrite (IH _ _ _ E).
Qed.

(** C1. [harvestAll] returns the conjunction, over all tasks in order, of:
    the check of the destination directory passed, and for every set of the
    task the check of the set directory passed and no identifier of the set
    failed.  The run observed by [observe_all] makes the same calls, leaves
    the same world and raises when [harvestAll] raises. *)
Theorem harvestAll_is_conjunction (repoTasks : list RepoTask) (w : World) :
  match harvestAll env repoTasks w, observe_all env repoTasks w with
  | (Ok good, w1), (Ok reports, w2) =>
      w1 = w2 ∧ length reports = length repoTasks ∧
      good = forallb task_ok reports
  | (Raised e1, w1), (Raised e2, w2) => e1 = e2 ∧ w1 = w2
  | _, _ => False
  end.
Proof.
  unfold harvestAll. rewrite harvestAll_loop_observe.
  destruct (observe_all env repoTasks w) as [[rs|e] w'] eqn:E; [|done].
  split; [done|]. split; [|done]. by apply observe_all_length in E.
Qed.


(** C6. A destination root that is a regular file, or that is missing and
    cannot be created, makes [harvest] return [False] at once: no curl call
    is made and no file is written or removed. *)
Theorem harvest_bad_root (repoTask : RepoTask) (w : World) :
  let dest := get (task_dest repoTask) "" in
  (∃ t, files w !! dest = Some (File t)) ∨
  (files w !! dest = None ∧
   (makedirs_ok env (tick w) dest = false ∨
    ∃ e, (makedirs env dest w).1 = Raised e)) →
  ∃ w', harvest env repoTask w = (Ok false, w') ∧
        files w' = files w ∧ calls w' = calls w.
Proof.
  intros dest H. unfold harvest, bind, ret. fold dest. rewrite check_dir_eq.
  destruct H as [[t ->]|[Hnone [->|[e He]]]]; cbn; eauto.
  - rewrite Hnone. eauto.
  - unfold makedirs in He. rewrite Hnone in *.
    destruct (makedirs_ok env (tick w) dest); [|eauto].
    destruct (makedirs_go (String.length dest) dest (files w)); [done|eauto].
Qed.

(** *** Order of the curl calls *)

Lemma sorted_ascending (ids : gset string) :
  StronglySorted String.le (sorted ids) ∧ sorted ids ≡ₚ elements ids.
Proof.
  split.
  - apply StronglySorted_merge_sort; apply _.
  - apply merge_sort_Permutation.
Qed.

Lemma harvest_doc_calls (repoTask : RepoTask) (setDest docId : string) w :
  calls (harvest_doc env repoTask setDest docId w).2
  = calls w ++ [call_of repoTask setDest docId].
Proof.
  rewrite harvest_doc_eq.
  destruct (files w !! _) as [[?|]|]; try done;
    destruct (response _ _ _ _) as [body|]; try done;
    by destruct (deliver_text body).
Qed.

Lemma check_dir_calls (dest : string) w :
  returned (check_dir env dest w).1 ∧
  calls (check_dir env dest w).2 = calls w.
Proof.
  destruct (check_dir_spec dest w) as (ok & w' & -> & Hc & _). done.
Qed.

Lemma harvest_ids_calls (repoTask : RepoTask) (setDest : string) ids st w :
  ∃ seen, seen `prefix_of` ids ∧
    calls (harvest_ids env repoTask setDest ids st w).2
    = calls w ++ (call_of repoTask setDest <$> seen) ∧
    (returned (harvest_ids env repoTask setDest ids st w).1 → seen = ids).
Proof.
  revert st w. induction ids as [|docId rest IH]; intros st w; cbn.
  - exists []. by rewrite app_nil_r.
  - unfold bind.
    pose proof (harvest_doc_calls repoTask setDest docId w) as Hc.
    destruct (harvest_doc env repoTask setDest docId w) as [[failed|e] w1];
      cbn in Hc.
    + destruct (IH (if failed then (false, S st.2) else st) w1)
        as (seen & Hp & Hcalls & Hall).
      exists (docId :: seen). split; [by apply prefix_cons|].
      split; [|by intros ->%Hall].
      rewrite Hcalls, Hc. cbn. by rewrite <- app_assoc.
    + exists [docId]. cbn. split; [|done].
      apply prefix_cons, prefix_nil.
Qed.

Lemma no_calls_for_unreached (repoTask : RepoTask) (sets : list RepoSet) :
  Forall2 (λ repoSet seen, seen `prefix_of` ids_of repoSet)
    sets (replicate (length sets) []) ∧
  concat (zip_with (set_calls repoTask) sets (replicate (length sets) [])) = [].
Proof.
  induction sets as [|repoSet rest [IH1 IH2]]; cbn; [done|].
  split; [|done]. constructor; [apply prefix_nil | done].
Qed.

Lemma harvest_sets_calls (repoTask : RepoTask) (sets : list RepoSet) good w :
  let dest := get (task_dest repoTask) "" in
  ∃ seen : list (list string),
    Forall2 (λ repoSet ids, ids `prefix_of` ids_of repoSet) sets seen ∧
    calls (harvest_sets env repoTask dest sets good w).2
    = calls w ++ concat (zip_with (set_calls repoTask) sets seen) ∧
    (returned (harvest_sets env repoTask dest sets good w).1 →
     Forall2 (λ repoSet ids, ids = [] ∨ ids = ids_of repoSet) sets seen).
Proof.
  intros dest. revert good w.
  induction sets as [|repoSet rest IH]; intros good w; cbn.
  - exists []. by rewrite app_nil_r.
  - unfold bind.
    destruct (check_dir_calls (dest +:+ "/" +:+ get (set_name repoSet) "UNSPECIFIED") w)
      as [Hret Hc].
    destruct (check_dir env _ w) as [[ok|e] w1]; cbn in Hret, Hc; [|done].
    destruct ok; cbn.
    + destruct (harvest_ids_calls repoTask (set_dest repoTask repoSet)
                  (ids_of repoSet) (true, 0) w1) as (ids & Hp & Hcalls & Hall).
      fold dest in Hcalls. unfold set_dest, ids_of in Hcalls, Hall.
      fold dest in Hcalls, Hall.
      destruct (harvest_ids env repoTask _ _ _ w1) as [[st|e] w2];
        cbn in Hcalls, Hall.
      * destruct (IH (if negb st.1 then false else good) w2)
          as (seen & HF & Hcalls' & Hall').
        exists (ids :: seen). split; [by constructor|]. split.
        -- rewrite Hcalls', Hcalls, Hc. cbn. by rewrite <- app_assoc.
        -- intros Hr. constructor; [right; by apply Hall | by apply Hall'].
      * destruct (no_calls_for_unreached repoTask rest) as [HF Hnil].
        exists (ids :: replicate (length rest) []).
        split; [by constructor|]. split; [|done].
        cbn. rewrite Hnil, app_nil_r, Hcalls, Hc. done.
    + destruct (IH false w1) as (seen & HF & Hcalls' & Hall').
      exists ([] :: seen). split; [constructor; [apply prefix_nil | done]|].
      split.
      * rewrite Hcalls', Hc. done.
      * intros Hr. constructor; [by left | by apply Hall'].
Qed.

Lemma harvest_doc_keeps_dir (repoTask : RepoTask) (setDest docId p : string) w :
  files w !! p = Some Dir →
  files (harvest_doc env repoTask setDest docId w).2 !! p = Some Dir.
Proof.
  intros Hp. rewrite harvest_doc_eq.
  destruct (files w !! docDest_of setDest docId) as [[?|]|] eqn:E; try done;
    (destruct (decide (p = docDest_of setDest docId)) as [->|Hne];
     [congruence|]);
    destruct (response _ _ _ _) as [body|]; cbn;
    try destruct (deliver_text body); cbn;
    by rewrite ?lookup_delete_ne, ?lookup_insert_ne.
Qed.

Lemma harvest_ids_keeps_dir (repoTask : RepoTask) (setDest p : string) ids st w :
  files w !! p = Some Dir →
  files (harvest_ids env repoTask setDest ids st w).2 !! p = Some Dir.
Proof.
  revert st w. induction ids as [|docId rest IH]; intros st w Hp; cbn; [done|].
  unfold bind.
  pose proof (harvest_doc_keeps_dir repoTask setDest docId p w Hp) as H.
  destruct (harvest_doc env repoTask setDest docId w) as [[failed|e] w1];
    cbn in H; [by apply IH | done].
Qed.

Lemma failing_ids_calls (repoTask : RepoTask) (setDest : string) ids w k w' :
  failing_ids env repoTask setDest ids w = (Ok k, w') →
  calls w' = calls w ++ (call_of repoTask setDest <$> ids).
Proof.
  intros H.
  destruct (harvest_ids_calls repoTask setDest ids (true, 0) w)
    as (seen & _ & Hcalls & Hall).
  rewrite harvest_ids_failing, H in Hcalls, Hall. cbn in Hcalls, Hall.
  by rewrite Hcalls, (Hall I).
Qed.

(** A set whose directory check passes has all its identifiers fetched, a
    set whose check fails none, whenever the loop over the sets returns. *)
Lemma observe_sets_calls (repoTask : RepoTask) (sets : list RepoSet) w rs w' :
  observe_sets env repoTask (get (task_dest repoTask) "") sets w = (Ok rs, w') →
  length rs = length sets ∧
  calls w' = calls w ++ concat (zip_with (calls_of_set repoTask) sets rs).
Proof.
  revert w rs w'. induction sets as [|repoSet rest IH]; intros w rs w'; cbn.
  - intros [= <- <-]. by rewrite app_nil_r.
  - unfold bind, ret.
    match goal with
    | |- context [check_dir env ?d w] =>
        destruct (check_dir_spec d w) as (ok & w1 & -> & Hc & _)
    end.
    destruct ok.
    + destruct (failing_ids env repoTask _ _ w1) as [[k|e] w2] eqn:Hk; [|done].
      apply failing_ids_calls in Hk.
      destruct (observe_sets env repoTask _ rest w2) as [[rs'|e] w3] eqn:Hrest;
        [|done].
      intros [= <- <-]. destruct (IH _ _ _ Hrest) as [Hlen Hcalls].
      split; [cbn; by rewrite Hlen|].
      cbn. unfold calls_of_set at 1. cbn.
      rewrite Hcalls, Hk, Hc. unfold set_calls, set_dest, ids_of.
      by rewrite <- app_assoc.
    + cbn.
      destruct (observe_sets env repoTask _ rest w1) as [[rs'|e] w3] eqn:Hrest;
        [|done].
      intros [= <- <-]. destruct (IH _ _ _ Hrest) as [Hlen Hcalls].
      split; [cbn; by rewrite Hlen|].
      cbn. unfold calls_of_set at 1. cbn. by rewrite Hcalls, Hc.
Qed.

(** When the directories of all sets are there, every identifier of every
    set is fetched. *)
Lemma harvest_sets_full (repoTask : RepoTask) (sets : list RepoSet) good w b w' :
  (∀ repoSet, repoSet ∈ sets → files w !! set_dest repoTask repoSet = Some Dir) →
  harvest_sets env repoTask (get (task_dest repoTask) "") sets good w = (Ok b, w') →
  calls w' = calls w ++
    concat ((λ repoSet, set_calls repoTask repoSet (ids_of repoSet)) <$> sets).
Proof.
  revert good w. induction sets as [|repoSet rest IH]; intros good w Hdirs; cbn.
  - intros [= _ <-]. by rewrite app_nil_r.
  - unfold bind. rewrite check_dir_eq.
    pose proof (Hdirs repoSet ltac:(by left)) as Hdir. unfold set_dest in Hdir.
    cbn [String.append] in *. rewrite Hdir. cbn.
    destruct (harvest_ids_calls repoTask (set_dest repoTask repoSet)
                (ids_of repoSet) (true, 0) w) as (seen & _ & Hcalls & Hall).
    pose proof (λ p, harvest_ids_keeps_dir repoTask (set_dest repoTask repoSet) p
                       (ids_of repoSet) (true, 0) w) as Hkeep.
    unfold set_dest, ids_of in Hcalls, Hall, Hkeep.
    destruct (harvest_ids env repoTask _ _ _ w) as [[st|e] w2];
      cbn in Hcalls, Hall, Hkeep; [|done].
    intros H. apply IH in H.
    + rewrite H, Hcalls, (Hall I). unfold set_calls, set_dest, ids_of.
      by rewrite <- app_assoc.
    + intros repoSet' Hin. apply Hkeep, Hdirs. by right.
Qed.

(** C9. The curl calls of [harvest] come set by set in the order of the
    task's list of sets, and within a set in the order of [sorted(ids)],
    which is ascending and holds exactly the identifiers of the set.  The
    identifiers reached in a set are an initial part of that list, also when
    [harvest] ends with an exception.  When [harvest] returns, every set
    whose directory check passed has had all its identifiers fetched, in
    that order, and a set whose check failed none; in particular, when the
    destination root and the directories of all sets are there at the start,
    every identifier of every set is fetched. *)
Theorem harvest_call_order (repoTask : RepoTask) (w : World) :
  let dest := get (task_dest repoTask) "" in
  let sets := get (task_sets repoTask) [] in
  (∀ repoSet ids, set_ids repoSet = Some ids →
     StronglySorted String.le (ids_of repoSet) ∧
     ids_of repoSet ≡ₚ elements ids) ∧
  (∃ seen : list (list string),
    Forall2 (λ repoSet ids, ids `prefix_of` ids_of repoSet) sets seen ∧
    calls (harvest env repoTask w).2
    = calls w ++ concat (zip_with (set_calls repoTask) sets seen) ∧
    (returned (harvest env repoTask w).1 →
     Forall2 (λ repoSet ids, ids = [] ∨ ids = ids_of repoSet) sets seen)) ∧
  (∀ good w', harvest env repoTask w = (Ok good, w') →
     ∃ report, observe env repoTask w = (Ok report, w') ∧
       (root_ok report = true → length (set_reports report) = length sets) ∧
       calls w' = calls w ++
         concat (zip_with (calls_of_set repoTask) sets (set_reports report))) ∧
  (∀ good w', harvest env repoTask w = (Ok good, w') →
     files w !! dest = Some Dir →
     (∀ repoSet, repoSet ∈ sets →
        files w !! set_dest repoTask repoSet = Some Dir) →
     calls w' = calls w ++
       concat ((λ repoSet, set_calls repoTask repoSet (ids_of repoSet)) <$> sets)).
Proof.
  intros dest sets. split; [|split; [|split]].
  - intros repoSet ids E. unfold ids_of. rewrite E. cbn. apply sorted_ascending.
  - unfold harvest, bind.
    destruct (check_dir_calls (get (task_dest repoTask) "") w) as [Hret Hc].
    destruct (check_dir env _ w) as [[ok|e] w1]; cbn in Hret, Hc; [|done].
    destruct ok; cbn.
    + destruct (harvest_sets_calls repoTask sets true w1)
        as (seen & HF & Hcalls & Hall).
      exists seen. rewrite <- Hc. done.
    + destruct (no_calls_for_unreached repoTask sets) as [HF Hnil].
      exists (replicate (length sets) []). rewrite Hnil, app_nil_r.
      split; [done|]. split; [done|]. intros _.
      clear. induction sets; cbn; constructor; auto.
  - intros good w'. rewrite harvest_observe.
    destruct (observe env repoTask w) as [[report|e] w2] eqn:Hobs; [|done].
    intros [= _ <-]. exists report. split; [done|].
    revert Hobs. unfold observe, bind, ret. fold dest. fold sets.
    destruct (check_dir_spec dest w) as (ok & w1 & -> & Hc & _).
    destruct ok.
    + destruct (observe_sets env repoTask dest sets w1) as [[rs|e] w3] eqn:Hsets;
        [|done].
      intros [= <- <-]. cbn. apply observe_sets_calls in Hsets as [Hlen Hcalls].
      split; [done|]. by rewrite Hcalls, Hc.
    + intros [= <- <-]. cbn. split; [done|].
      rewrite Hc. destruct sets; cbn; by rewrite app_nil_r.
  - intros good w'. unfold harvest, bind. fold dest. fold sets.
    rewrite check_dir_eq. intros H Hroot. rewrite Hroot in H. cbn in H.
    intros Hdirs. by apply harvest_sets_full in H.
Qed.

(** *** Failures of one identifier stay with it, unless a directory is in
    the way *)

Lemma harvest_doc_no_new_dir (repoTask : RepoTask) (setDest docId p : string) w :
  files w !! p ≠ Some Dir →
  files (harvest_doc env repoTask setDest docId w).2 !! p ≠ Some Dir.
Proof.
  intros Hp. rewrite harvest_doc_eq.
  destruct (files w !! docDest_of _ _) as [[?|]|] eqn:Hd; try done;
    destruct (response _ _ _ _) as [body|]; cbn;
    try destruct (deliver_text body); cbn;
    destruct (decide (p = docDest_of setDest docId)) as [->|Hne];
    by rewrite ?lookup_delete_eq, ?lookup_insert_eq, ?lookup_delete_ne,
         ?lookup_insert_ne.
Qed.

Lemma harvest_doc_returns (repoTask : RepoTask) (setDest docId : string) w :
  files w !! docDest_of setDest docId ≠ Some Dir →
  returned (harvest_doc env repoTask setDest docId w).1.
Proof.
  intros Hp. rewrite harvest_doc_eq.
  destruct (files w !! docDest_of _ _) as [[?|]|]; try done;
    destruct (response _ _ _ _) as [body|]; try done;
    by destruct (deliver_text body).
Qed.

(** When no destination path of the set is a directory, every identifier of
    the set is fetched, whichever of them fail. *)
Lemma harvest_ids_isolated (repoTask : RepoTask) (setDest : string) ids st w :
  (∀ docId, docId ∈ ids → files w !! docDest_of setDest docId ≠ Some Dir) →
  returned (harvest_ids env repoTask setDest ids st w).1 ∧
  calls (harvest_ids env repoTask setDest ids st w).2
  = calls w ++ (call_of repoTask setDest <$> ids).
Proof.
  intros Hnodir.
  assert (returned (harvest_ids env repoTask setDest ids st w).1) as Hret.
  { revert st w Hnodir. induction ids as [|docId rest IH]; intros st w Hnodir;
      cbn; [done|].
    unfold bind.
    pose proof (harvest_doc_returns repoTask setDest docId w) as Hr.
    pose proof (λ p, harvest_doc_no_new_dir repoTask setDest docId p w) as Hd.
    destruct (harvest_doc env repoTask setDest docId w) as [[failed|e] w1];
      cbn in Hr, Hd.
    - apply IH. intros docId' Hin. apply Hd, Hnodir. by right.
    - apply Hr, Hnodir. by left. }
  split; [done|].
  destruct (harvest_ids_calls repoTask setDest ids st w) as (seen & _ & -> & Hall).
  by rewrite (Hall Hret).
Qed.

(** *** Files left by one set *)

Lemma elem_of_dir_files (dir p : string) w :
  p ∈ dir_files dir w ↔ in_dir dir p = true ∧ is_file (files w !! p) = true.
Proof.
  unfold dir_files. rewrite elem_of_dom. split.
  - intros [n [Hn HP]%map_lookup_filter_Some]. cbn in HP.
    apply andb_prop in HP as [? ?]. by rewrite Hn.
  - intros [Hd Hf]. destruct (files w !! p) as [n|] eqn:Hn; [|done].
    exists n. apply map_lookup_filter_Some. split; [done|]. cbn.
    by rewrite Hd.
Qed.

Lemma docDest_in_dir (setDest docId : string) :
  in_dir setDest (docDest_of setDest docId) = true.
Proof.
  unfold in_dir, docDest_of, startswith.
  rewrite <- (str_app_assoc setDest "/"). by rewrite lit_app.
Qed.

Lemma harvest_doc_frame (repoTask : RepoTask) (setDest docId p : string) w :
  p ≠ docDest_of setDest docId →
  files (harvest_doc env repoTask setDest docId w).2 !! p = files w !! p.
Proof.
  intros Hp. rewrite harvest_doc_eq.
  destruct (files w !! docDest_of _ _) as [[?|]|]; try done;
    destruct (response _ _ _ _) as [body|]; cbn;
    try (by rewrite lookup_delete_ne);
    destruct (deliver_text body); cbn;
    by rewrite ?lookup_delete_ne, ?lookup_insert_ne.
Qed.

Lemma harvest_doc_file (repoTask : RepoTask) (setDest docId : string) w failed w' :
  harvest_doc env repoTask setDest docId w = (Ok failed, w') →
  is_file (files w' !! docDest_of setDest docId) = negb failed.
Proof.
  rewrite harvest_doc_eq.
  destruct (files w !! docDest_of _ _) as [[?|]|]; try discriminate;
    destruct (response _ _ _ _) as [body|];
    try (intros [= <- <-]; cbn; by rewrite lookup_delete_eq);
    destruct (deliver_text body); intros [= <- <-]; cbn;
    by rewrite ?lookup_delete_eq, ?lookup_insert_eq.
Qed.

Lemma failing_ids_frame (repoTask : RepoTask) (setDest p : string) ids w :
  p ∉ (docDest_of setDest <$> ids) →
  files (failing_ids env repoTask setDest ids w).2 !! p = files w !! p.
Proof.
  revert w. induction ids as [|docId rest IH]; intros w Hp; cbn; [done|].
  cbn in Hp. apply not_elem_of_cons in Hp as [Hne Hp].
  unfold bind, ret, peek.
  pose proof (harvest_doc_frame repoTask setDest docId p w Hne) as Hf.
  destruct (harvest_doc env repoTask setDest docId w) as [[failed|e] w1];
    cbn in Hf; [|done].
  specialize (IH w1 Hp).
  by destruct (failing_ids env repoTask setDest rest w1) as [[n|e] w2];
    cbn in *; rewrite IH.
Qed.

Lemma failing_ids_le (repoTask : RepoTask) (setDest : string) ids w k w' :
  failing_ids env repoTask setDest ids w = (Ok k, w') → k ≤ length ids.
Proof.
  revert w k w'. induction ids as [|docId rest IH]; intros w k w'; cbn.
  - intros [= <- _]. lia.
  - unfold bind, ret, peek.
    destruct (harvest_doc env repoTask setDest docId w) as [[failed|e] w1]; [|done].
    destruct (failing_ids env repoTask setDest rest w1) as [[n|e] w2] eqn:E; [|done].
    apply IH in E. intros [= <- _]. destruct (doc_fails _ _ _ _); lia.
Qed.

(** Among pairwise distinct destination paths, those that hold a file after
    the loop are as many as the identifiers that did not fail. *)
Lemma failing_ids_files (repoTask : RepoTask) (setDest : string) ids w k w' :
  NoDup (docDest_of setDest <$> ids) →
  failing_ids env repoTask setDest ids w = (Ok k, w') →
  length (filter (λ p, is_file (files w' !! p) = true) (docDest_of setDest <$> ids))
  = length ids - k.
Proof.
  revert w k w'. induction ids as [|docId rest IH]; intros w k w' Hnd.
  - by intros [= <- <-].
  - rewrite fmap_cons in Hnd |- *. apply NoDup_cons in Hnd as [Hfresh Hnd].
    cbn [failing_ids length]. unfold bind, ret, peek.
    pose proof (harvest_doc_flag repoTask setDest docId w) as Hflag.
    pose proof (harvest_doc_file repoTask setDest docId w) as Hfile.
    destruct (harvest_doc env repoTask setDest docId w) as [[failed|e] w1]; [|done].
    rewrite <- (Hflag failed w1 eq_refl). specialize (Hfile failed w1 eq_refl).
    pose proof (failing_ids_frame repoTask setDest _ rest w1 Hfresh) as Hframe.
    destruct (failing_ids env repoTask setDest rest w1) as [[n|e] w2] eqn:E; [|done].
    cbn [snd] in Hframe. intros [= <- <-].
    pose proof (failing_ids_le _ _ _ _ _ _ E) as Hle.
    specialize (IH _ _ _ Hnd E).
    rewrite filter_cons, Hframe, Hfile.
    destruct failed; cbn [negb]; case_decide; try done; cbn [length];
      rewrite IH; lia.
Qed.

(** C4 (amended). One pass over a set: the failure counter [nError] is the
    number K of identifiers that fail fetch or classification, the number of
    successes the program reports is N - K, the two add up to N, and
    [setGood] says that K is zero.  Exactly N - K files exist below the set
    directory when the identifiers are plain file names, their destination
    paths are pairwise distinct, and the set directory held no file other
    than at those paths before the pass. *)
Theorem harvest_ids_counts (repoTask : RepoTask) (setDest : string)
    (ids : list string) (w : World) setGood nError w' :
  harvest_ids env repoTask setDest ids (true, 0) w = (Ok (setGood, nError), w') →
  failing_ids env repoTask setDest ids w = (Ok nError, w') ∧
  (length ids - nError) + nError = length ids ∧
  setGood = (nError =? 0) ∧
  (Forall (λ docId, plain_name docId = true) ids →
   NoDup (docDest_of setDest <$> ids) →
   dir_files setDest w ⊆ list_to_set (docDest_of setDest <$> ids) →
   size (dir_files setDest w') = length ids - nError).
Proof.
  rewrite harvest_ids_failing.
  destruct (failing_ids env repoTask setDest ids w) as [[k|e] w2] eqn:E; [|done].
  intros H.
  assert (k = nError ∧ setGood = (k =? 0) ∧ w2 = w') as (-> & -> & ->).
  { destruct k; cbn in H; by injection H as <- <- <-. }
  pose proof (failing_ids_le _ _ _ _ _ _ E) as Hle.
  split; [done|]. split; [lia|]. split; [done|].
  intros _ Hnd Hdir.
  rewrite <- (failing_ids_files _ _ _ _ _ _ Hnd E).
  rewrite <- (size_list_to_set (C := gset string)) by by apply NoDup_filter.
  f_equal. apply set_eq. intros p.
  rewrite elem_of_dir_files, elem_of_list_to_set, list_elem_of_filter.
  split.
  - intros [Hin Hf]. split; [done|].
    destruct (decide (p ∈ docDest_of setDest <$> ids)) as [|Hout]; [done|].
    pose proof (failing_ids_frame repoTask setDest p ids w Hout) as Hframe.
    rewrite E in Hframe. cbn in Hframe. rewrite Hframe in Hf.
    assert (p ∈ dir_files setDest w) as Hp by by apply elem_of_dir_files.
    apply Hdir in Hp. by apply elem_of_list_to_set in Hp.
  - intros [Hf Hin]. split; [|done].
    apply list_elem_of_fmap in Hin as (docId & -> & _). apply docDest_in_dir.
Qed.

End LoopFacts.

(** ** Classification *)

Section ClassifierClaims.
Import Text Regex Classifier Spec.

(** C2 (amended). A text with the closing markers of the record envelope and
    of the metadata.  When [metadataPat] matches, the match starts at the
    first opening metadata tag, its group is the text between the end of
    that tag and the last closing metadata tag of the text, and the result
    is that text stripped, whatever else comes before the opening tag and
    after the closing one.  When [metadataPat] does not match, the result is
    "No metadata found". *)
Theorem deliver_text_metadata (text : string) :
  contains "</GetRecord>" text = true →
  contains "</metadata>" text = true →
  (∀ m, search metadataPat text = Some m →
     ∃ pre attrs inner post,
       text = pre +:+ "<metadata" +:+ attrs +:+ ">" +:+ inner +:+
              "</metadata>" +:+ post ∧
       contains "<metadata" pre = false ∧ mem ">" attrs = false ∧
       contains "</metadata>" post = false ∧
       deliver_text text = Rewrite (strip inner)) ∧
  (∀ pre attrs inner post,
     text = pre +:+ "<metadata" +:+ attrs +:+ ">" +:+ inner +:+
            "</metadata>" +:+ post →
     contains "<metadata" pre = false →
     mem ">" attrs = false →
     contains "</metadata>" post = false →
     deliver_text text = Rewrite (strip inner)) ∧
  (search metadataPat text = None →
   deliver_text text = Fail "No metadata found").
Proof.
  intros H1 H2. unfold deliver_text. rewrite H1, H2. cbn [andb].
  split; [|split].
  - intros m Hm.
    destruct (metadataPat_inv _ _ Hm) as (pre & attrs & inner & post & E & ? & ? & ? & ->).
    exists pre, attrs, inner, post. by rewrite Hm.
  - intros pre attrs inner post -> Hpre Hattrs Hpost.
    by rewrite metadataPat_match.
  - by intros ->.
Qed.

(** C3 (amended). A text without both closing markers of the metadata path
    but with a closing error marker.  When [errorPat] matches, the match
    starts at the first "<error", the code is the value of a quoted code
    attribute after it, the message is the text between the end of that tag
    and the last closing error tag of the text, and the result is the error
    made of the two.  When the text has such an attribute with no "code="
    after it, the code is the value of that attribute.  When [errorPat] does
    not match, the result is "Could not parse error message". *)
Theorem deliver_text_error (text : string) :
  contains "</GetRecord>" text && contains "</metadata>" text = false →
  contains "</error>" text = true →
  (∀ m, search errorPat text = Some m →
     ∃ pre a code b msg post q1 q2,
       text = pre +:+ "<error" +:+ a +:+ "code=" +:+
              String q1 (code +:+ String q2 (b +:+ ">" +:+ msg +:+
                                             "</error>" +:+ post)) ∧
       contains "<error" pre = false ∧
       is_quote q1 = true ∧ is_quote q2 = true ∧
       mem squote code = false ∧ mem dquote code = false ∧
       mem ">" b = false ∧
       contains "</error>" post = false ∧
       deliver_text text = Fail (code +:+ ": " +:+ msg)) ∧
  (∀ pre a code b msg post q1 q2,
     text = pre +:+ "<error" +:+ a +:+ "code=" +:+
            String q1 (code +:+ String q2 (b +:+ ">" +:+ msg +:+
                                           "</error>" +:+ post)) →
     contains "<error" pre = false →
     is_quote q1 = true → is_quote q2 = true →
     mem squote code = false → mem dquote code = false →
     mem ">" b = false →
     contains "code="
       (code +:+ String q2 (b +:+ ">" +:+ msg +:+ "</error>" +:+ post)) = false →
     contains "</error>" post = false →
     deliver_text text = Fail (code +:+ ": " +:+ msg)) ∧
  (search errorPat text = None →
   deliver_text text = Fail "Could not parse error message").
Proof.
  intros H1 H2. unfold deliver_text. rewrite H1, H2.
  split; [|split].
  - intros m Hm.
    destruct (errorPat_inv _ _ Hm)
      as (pre & a & code & b & msg & post & q1 & q2 & E & ? & ? & ? & ? & ? & ? & ? & ->).
    exists pre, a, code, b, msg, post, q1, q2. by rewrite Hm.
  - intros pre a code b msg post q1 q2 -> Hpre Hq1 Hq2 Hc1 Hc2 Hb Hlast Hpost.
    by rewrite errorPat_match.
  - by intros ->.
Qed.

(** C8. A text that has neither both closing markers of the metadata path nor
    a closing error marker is malformed. *)
Theorem deliver_text_no_markers (text : string) :
  contains "</GetRecord>" text && contains "</metadata>" text = false →
  contains "</error>" text = false →
  deliver_text text = Fail "No record found and no error message found".
Proof. intros H1 H2. unfold deliver_text. by rewrite H1, H2. Qed.

End ClassifierClaims.

(** ** The properties at concrete inputs *)

Section Concrete.
Import Text Regex Classifier OS Harvest Spec Demo.

Example scenario_record :
  deliver_text
    "<OAI-PMH>...<GetRecord><metadata><record>DATA</record></metadata></GetRecord></OAI-PMH>"
  = Rewrite "<record>DATA</record>".
Proof. vm_compute. reflexivity. Qed.

Example scenario_error :
  deliver_text "<OAI-PMH>...<error code='idDoesNotExist'>Unknown id</error></OAI-PMH>"
  = Fail "idDoesNotExist: Unknown id".
Proof. vm_compute. reflexivity. Qed.

Example scenario_no_opening_tag :
  deliver_text "<GetRecord></metadata></GetRecord>" = Fail "No metadata found".
Proof. vm_compute. reflexivity. Qed.

Example scenario_no_code :
  deliver_text "<error>Unknown id</error>" = Fail "Could not parse error message".
Proof. vm_compute. reflexivity. Qed.

Example strip_whitespace :
  strip (String "009" (String "160" "a b" +:+ String "010" " ")) = "a b".
Proof. vm_compute. reflexivity. Qed.

Lemma deliver_text_metadata_witness :
  contains "</GetRecord>" (record_of " <dc>x</dc> ") = true ∧
  contains "</metadata>" (record_of " <dc>x</dc> ") = true ∧
  deliver_text (record_of " <dc>x</dc> ") = Rewrite "<dc>x</dc>".
Proof.
  split; [reflexivity|]. split; [reflexivity|].
  destruct (deliver_text_metadata (record_of " <dc>x</dc> ") eq_refl eq_refl)
    as (_ & H & _).
  exact (H "<OAI-PMH><GetRecord><record>" "" " <dc>x</dc> "
           "</record></GetRecord></OAI-PMH>" eq_refl eq_refl eq_refl eq_refl).
Defined.

(** C2, as stated, fails: a metadata element inside a sibling of the metadata
    fragment moves the end of the payload to its closing tag. *)
Lemma deliver_text_metadata_spans_siblings :
  contains "</GetRecord>" record_with_about = true ∧
  contains "</metadata>" record_with_about = true ∧
  record_with_about
  = "<GetRecord><record>" +:+ "<metadata>" +:+ "<dc>A</dc>" +:+ "</metadata>" +:+
    "<about><metadata>B</metadata></about></record></GetRecord>" ∧
  deliver_text record_with_about
  = Rewrite "<dc>A</dc></metadata><about><metadata>B" ∧
  deliver_text record_with_about ≠ Rewrite "<dc>A</dc>".
Proof. repeat split; try reflexivity. vm_compute. discriminate. Qed.

Lemma deliver_text_error_witness :
  contains "</GetRecord>" error_page && contains "</metadata>" error_page = false ∧
  contains "</error>" error_page = true ∧
  deliver_text error_page = Fail "idDoesNotExist: Unknown id".
Proof.
  split; [reflexivity|]. split; [reflexivity|].
  destruct (deliver_text_error error_page eq_refl eq_refl) as (_ & H & _).
  exact (H "<OAI-PMH>" " " "idDoesNotExist" "" "Unknown id" "</OAI-PMH>"
           squote squote eq_refl eq_refl eq_refl eq_refl eq_refl eq_refl
           eq_refl eq_refl eq_refl).
Defined.

(** C3, as stated, fails: with two error elements the result carries the
    code and the message of the last one, not of the first. *)
Lemma deliver_text_error_not_first_element :
  contains "</GetRecord>" two_errors && contains "</metadata>" two_errors = false ∧
  contains "</error>" two_errors = true ∧
  two_errors = "<error code='badArgument'>" +:+ "m1" +:+ "</error>" +:+
               "<error code='badVerb'>m2</error>" ∧
  deliver_text two_errors = Fail "badVerb: m2" ∧
  deliver_text two_errors ≠ Fail "badArgument: m1".
Proof. repeat split; try reflexivity. vm_compute. discriminate. Qed.

Lemma deliver_text_no_markers_witness :
  contains "</GetRecord>" "<html>503</html>" &&
    contains "</metadata>" "<html>503</html>" = false ∧
  deliver_text "<html>503</html>"
  = Fail "No record found and no error message found".
Proof.
  split; [reflexivity|].
  exact (deliver_text_no_markers "<html>503</html>" eq_refl eq_refl).
Defined.

Lemma harvest_bad_root_witness :
  files root_is_file !! "d" = Some (File "notes") ∧
  ∃ w', harvest echo colliding root_is_file = (Ok false, w') ∧
        files w' = files root_is_file ∧ calls w' = calls root_is_file.
Proof.
  split; [reflexivity|].
  apply (harvest_bad_root echo colliding root_is_file).
  left. exists "notes". reflexivity.
Defined.

Lemma harvest_ids_counts_witness :
  let run := harvest_ids without_a_colon_b plain "d/s" ["a"; "a:b"] (true, 0)
               empty_world in
  run.1 = Ok (false, 1) ∧
  (2 - 1) + 1 = 2 ∧ size (dir_files "d/s" run.2) = 2 - 1.
Proof.
  intros run. split; [reflexivity|].
  assert (harvest_ids without_a_colon_b plain "d/s" ["a"; "a:b"] (true, 0) empty_world
          = (Ok (false, 1), run.2)) as Hrun by (vm_compute; reflexivity).
  destruct (harvest_ids_counts without_a_colon_b plain "d/s" ["a"; "a:b"]
              empty_world false 1 run.2 Hrun) as (_ & Hsum & _ & Hfiles).
  split; [exact Hsum|]. apply Hfiles.
  - repeat constructor.
  - apply (bool_decide_unpack _). vm_compute. reflexivity.
  - apply (bool_decide_unpack _). vm_compute. reflexivity.
Defined.

(** C4, as stated, fails.  Two identifiers whose destination paths are the
    same both succeed: N = 2 and K = 0, and one file exists in the directory
    of the set.  And a file that was in the directory before stays there:
    N = 1 and K = 0, and two files exist. *)
Lemma harvest_ids_counts_collision :
  (let ids := sorted {["a:b"; "a-b"]} in
   let run := harvest_ids echo colliding "d/s" ids (true, 0) empty_world in
   length ids = 2 ∧ run.1 = Ok (true, 0) ∧
   failing_ids echo colliding "d/s" ids empty_world = (Ok 0, run.2) ∧
   size (dir_files "d/s" run.2) = 1 ∧
   size (dir_files "d/s" run.2) ≠ length ids - 0) ∧
  (let run := harvest_ids echo plain "d/s" ["a"] (true, 0) with_old_file in
   run.1 = Ok (true, 0) ∧
   failing_ids echo plain "d/s" ["a"] with_old_file = (Ok 0, run.2) ∧
   size (dir_files "d/s" run.2) = 2 ∧
   size (dir_files "d/s" run.2) ≠ length ["a"] - 0).
Proof.
  split; repeat split; try (vm_compute; reflexivity); vm_compute; discriminate.
Qed.

(** C10. The destination paths of the identifiers [a:b] and [a-b] of one set
    are the same.  [a-b] is processed first.  When both succeed the file
    holds the record of [a:b]; when [a:b] fails the file of [a-b] is removed,
    and the set counts one success while its directory holds no file. *)
Theorem docDest_not_injective :
  "a:b" ≠ "a-b" ∧
  (∀ setDest, docDest_of setDest "a:b" = docDest_of setDest "a-b") ∧
  ids_of (set_of "s" {["a:b"; "a-b"]}) = ["a-b"; "a:b"] ∧
  (let run := harvest echo colliding empty_world in
   run.1 = Ok true ∧
   files run.2 !! "d/s/a-b"
   = Some (File "http://repo/oai?verb=GetRecord&identifier=a:b&metadataPrefix=ead")) ∧
  (let run := harvest without_a_colon_b colliding empty_world in
   run.1 = Ok false ∧
   observe without_a_colon_b colliding empty_world
   = (Ok {| root_ok := true;
            set_reports := [{| set_dir_ok := true; failures := 1 |}] |}, run.2) ∧
   files run.2 !! "d/s/a-b" = None ∧
   dir_files "d/s" run.2 = ∅).
Proof.
  split; [done|]. split; [done|].
  repeat split; vm_compute; reflexivity.
Qed.

(** C7, at an input where it fails: the first set makes the directory
    [d/s/t], which is the destination file of identifier [t] of the second
    set.  curl cannot write there, reading the file raises, the exception is
    caught, and [os.unlink] of the directory raises outside the [try]:
    [harvest] ends with that exception and identifier [u] is never fetched. *)
Theorem harvest_aborts_on_directory_destination :
  let run := harvest echo nested empty_world in
  ids_of (set_of "s" {["t"; "u"]}) = ["t"; "u"] ∧
  files run.2 !! docDest_of "d/s" "t" = Some Dir ∧
  run.1 = Raised IsADirectoryError ∧
  calls run.2 = [call_of nested "d/s" "t"] ∧
  (harvestAll echo [nested; plain] empty_world).1 = Raised IsADirectoryError.
Proof. repeat split; vm_compute; reflexivity. Qed.

End Concrete.

(** * Further properties *)

(** ** Directories and files *)

Section WorldFacts.
Import Text Regex Classifier OS Harvest Spec More.
Variable env : Env.

Lemma keeps_directories_bind {A B} (m : M A) (f : A → M B) :
  keeps_directories m → (∀ a, keeps_directories (f a)) →
  keeps_directories (bind m f).
Proof.
  intros Hm Hf w p Hp. unfold bind. specialize (Hm w p Hp).
  destruct (m w) as [[a|e] w1]; cbn in *; [by apply Hf | done].
Qed.

Lemma keeps_directories_ret {A} (a : A) : keeps_directories (ret a).
Proof. by intros w p Hp. Qed.

Lemma touches_only_bind {A B} (P : string → Prop) (m : M A) (f : A → M B) :
  touches_only P m → (∀ a, touches_only P (f a)) →
  touches_only P (bind m f).
Proof.
  intros Hm Hf w p Hp. unfold bind. specialize (Hm w p Hp).
  destruct (m w) as [[a|e] w1]; cbn in *; [|done].
  by rewrite (Hf a w1 p Hp).
Qed.

Lemma touches_only_ret {A} (P : string → Prop) (a : A) : touches_only P (ret a).
Proof. by intros w p Hp. Qed.

Lemma touches_only_mono {A} (P Q : string → Prop) (m : M A) :
  (∀ p, P p → Q p) → touches_only P m → touches_only Q m.
Proof. intros Hsub Hm w p Hp. apply Hm. intros HP. by apply Hp, Hsub. Qed.

Lemma check_dir_keeps (dest : string) : keeps_directories (check_dir env dest).
Proof.
  intros w p Hp.
  destruct (check_dir_spec env dest w) as (ok & w' & -> & _ & _ & _ & Hnew).
  cbn. destruct (Hnew p) as [->|(_ & ? & ?)]; [done|congruence].
Qed.

Lemma check_dir_touches (dest : string) :
  touches_only (at_or_above dest) (check_dir env dest).
Proof.
  intros w p Hp.
  destruct (check_dir_spec env dest w) as (ok & w' & -> & _ & _ & _ & Hnew).
  cbn. destruct (Hnew p) as [?|(Habove & _)]; [done|]. by destruct Hp.
Qed.

Lemma harvest_doc_keeps (repoTask : RepoTask) (setDest docId : string) :
  keeps_directories (harvest_doc env repoTask setDest docId).
Proof. intros w p. apply harvest_doc_keeps_dir. Qed.

Lemma harvest_doc_touches (repoTask : RepoTask) (setDest docId : string) :
  touches_only (λ p, p = docDest_of setDest docId)
    (harvest_doc env repoTask setDest docId).
Proof. intros w p Hp. by apply harvest_doc_frame. Qed.

Lemma harvest_ids_keeps (repoTask : RepoTask) (setDest : string) ids st :
  keeps_directories (harvest_ids env repoTask setDest ids st).
Proof. intros w p. apply harvest_ids_keeps_dir. Qed.

Lemma harvest_ids_touches (repoTask : RepoTask) (setDest : string) ids st :
  touches_only (λ p, p ∈ docDest_of setDest <$> ids)
    (harvest_ids env repoTask setDest ids st).
Proof.
  revert st. induction ids as [|docId rest IH]; intros st; cbn.
  - apply touches_only_ret.
  - apply touches_only_bind.
    + eapply touches_only_mono; [|apply harvest_doc_touches].
      intros p ->. by left.
    + intros failed. eapply touches_only_mono; [|apply IH].
      intros p Hp. by right.
Qed.

Lemma harvest_sets_keeps (repoTask : RepoTask) (dest : string) sets good :
  keeps_directories (harvest_sets env repoTask dest sets good).
Proof.
  revert good. induction sets as [|repoSet rest IH]; intros good; cbn.
  - apply keeps_directories_ret.
  - apply keeps_directories_bind; [apply check_dir_keeps|].
    intros [|]; cbn; [|apply IH].
    apply keeps_directories_bind; [apply harvest_ids_keeps | intros; apply IH].
Qed.

Lemma harvest_keeps (repoTask : RepoTask) : keeps_directories (harvest env repoTask).
Proof.
  unfold harvest. apply keeps_directories_bind; [apply check_dir_keeps|].
  intros [|]; cbn; [apply harvest_sets_keeps | apply keeps_directories_ret].
Qed.

Lemma harvestAll_loop_keeps repoTasks good :
  keeps_directories (harvestAll_loop env repoTasks good).
Proof.
  revert good. induction repoTasks as [|repoTask rest IH]; intros good; cbn.
  - apply keeps_directories_ret.
  - apply keeps_directories_bind; [apply harvest_keeps | intros; apply IH].
Qed.

(** The loop over the sets changes directories only at the directories of
    the sets and above them, and files only at the destination files. *)
Lemma harvest_sets_touches (repoTask : RepoTask) (sets : list RepoSet) good :
  touches_only
    (λ p, ∃ repoSet, repoSet ∈ sets ∧
            (at_or_above (set_dest repoTask repoSet) p ∨
             p ∈ docDest_of (set_dest repoTask repoSet) <$> ids_of repoSet))
    (harvest_sets env repoTask (get (task_dest repoTask) "") sets good).
Proof.
  revert good. induction sets as [|repoSet rest IH]; intros good; cbn.
  - apply touches_only_ret.
  - apply touches_only_bind.
    + eapply touches_only_mono; [|apply check_dir_touches].
      intros p Hp. exists repoSet. split; [by left|]. by left.
    + intros [|]; cbn.
      * apply touches_only_bind.
        -- eapply touches_only_mono; [|apply harvest_ids_touches].
           intros p Hp. exists repoSet. split; [by left|]. by right.
        -- intros st. eapply touches_only_mono; [|apply IH].
           intros p (rs & Hin & Hp). exists rs. split; [by right|done].
      * eapply touches_only_mono; [|apply IH].
        intros p (rs & Hin & Hp). exists rs. split; [by right|done].
Qed.

(** X1. The directory check never raises.  It answers [True] exactly when
    the path is a directory afterwards, and it changes nothing when the path
    exists.  It never changes or removes what is there, and whatever it adds
    is a directory.  It makes no curl call, and once it has answered [True]
    it answers [True] again without any change. *)
Theorem check_dir_postcondition (dest : string) (w : World) :
  let w' := (check_dir env dest w).2 in
  ∃ ok, (check_dir env dest w).1 = Ok ok ∧
    (ok = true ↔ files w' !! dest = Some Dir) ∧
    (is_Some (files w !! dest) → w' = w) ∧
    (∀ p n, files w !! p = Some n → files w' !! p = Some n) ∧
    (∀ p, files w !! p = None →
          files w' !! p = None ∨ files w' !! p = Some Dir) ∧
    calls w' = calls w ∧
    (ok = true → check_dir env dest w' = (Ok true, w')).
Proof.
  cbv zeta.
  destruct (check_dir_spec env dest w) as (ok & w' & E & Hc & Hok & Hsame & Hnew).
  rewrite E. cbn [fst snd]. exists ok. split; [done|]. split; [done|].
  split; [done|]. split; [|split; [|split; [done|]]].
  - intros p n Hp. destruct (Hnew p) as [->|(_ & ? & _)]; [done|congruence].
  - intros p Hp. destruct (Hnew p) as [->|(_ & _ & ?)]; [by left|by right].
  - intros ->. rewrite check_dir_eq. destruct Hok as [Hok _]. by rewrite Hok.
Qed.

(** X2. A run never removes or replaces a directory: every path that is a
    directory before [harvestAll] is a directory after it, also when the run
    ends with an exception. *)
Theorem harvestAll_keeps_directories (repoTasks : list RepoTask) (w : World) (p : string) :
  files w !! p = Some Dir →
  files (harvestAll env repoTasks w).2 !! p = Some Dir.
Proof. apply harvestAll_loop_keeps. Qed.

(** X3. [harvest] changes the file system only at the destination root of
    the task and above it, at the directories of its sets and at the
    destination files of their identifiers; every other path is as before,
    also when [harvest] ends with an exception.  Here a path is the file its
    string names: the statement is for plain paths, the destination root
    being one and the names of the sets and the identifiers being plain
    names, where different strings are different files. *)
Theorem harvest_touches_only_task_paths (repoTask : RepoTask) (w : World) (p : string) :
  plain_task repoTask →
  plain_path p = true →
  rooted p = rooted (get (task_dest repoTask) "") →
  p ∉ doc_paths repoTask →
  (∀ q, q ∈ dir_paths repoTask → ¬ at_or_above q p) →
  files (harvest env repoTask w).2 !! p = files w !! p.
Proof.
  intros _ _ _ Hdoc Hdir.
  assert (touches_only
            (λ p, p ∈ doc_paths repoTask ∨
                  ∃ q, q ∈ dir_paths repoTask ∧ at_or_above q p)
            (harvest env repoTask)) as Htouch.
  { unfold harvest. apply touches_only_bind.
    - eapply touches_only_mono; [|apply check_dir_touches].
      intros q Hq. right. exists (get (task_dest repoTask) "").
      split; [by left|done].
    - intros [|]; cbn; [|apply touches_only_ret].
      eapply touches_only_mono; [|apply harvest_sets_touches].
      intros q (rs & Hin & [Hq|Hq]).
      + right. exists (set_dest repoTask rs). split; [|done].
        right. by apply list_elem_of_fmap_2.
      + left. unfold doc_paths. apply list_elem_of_In, in_concat.
        exists (docDest_of (set_dest repoTask rs) <$> ids_of rs).
        split; apply list_elem_of_In; [|done].
        by apply (list_elem_of_fmap_2
                    (λ rs, docDest_of (set_dest repoTask rs) <$> ids_of rs)). }
  apply Htouch. intros [?|(q & Hq & Habove)]; [done|]. by apply (Hdir q).
Qed.

Lemma harvestAll_loop_good repoTasks good w :
  harvestAll_loop env repoTasks good w =
  match harvestAll env repoTasks w with
  | (Ok b, w') => (Ok (good && b), w')
  | (Raised e, w') => (Raised e, w')
  end.
Proof.
  unfold harvestAll. rewrite !harvestAll_loop_observe.
  by destruct (observe_all env repoTasks w) as [[rs|e] w'].
Qed.

Lemma harvestAll_loop_app ts1 ts2 good w :
  harvestAll_loop env (ts1 ++ ts2) good w =
  match harvestAll_loop env ts1 good w with
  | (Ok g, w') => harvestAll_loop env ts2 g w'
  | (Raised e, w') => (Raised e, w')
  end.
Proof.
  revert good w. induction ts1 as [|t ts1 IH]; intros good w; cbn; [done|].
  unfold bind. destruct (harvest env t w) as [[b|e] w1]; [|done]. apply IH.
Qed.

(** X4. Harvesting a list of tasks in one run is harvesting a first part of
    the list and then, in the world this leaves, the rest: the result is the
    conjunction of the two results, and an exception in the first part ends
    the whole.  A failing task does not keep later tasks from being
    harvested. *)
Theorem harvestAll_app (ts1 ts2 : list RepoTask) (w : World) :
  harvestAll env (ts1 ++ ts2) w =
  (do b1 <- harvestAll env ts1;
   do b2 <- harvestAll env ts2;
   ret (b1 && b2)) w.
Proof.
  unfold harvestAll at 1. rewrite harvestAll_loop_app. unfold bind, ret.
  fold (harvestAll env ts1).
  destruct (harvestAll env ts1 w) as [[b1|e] w1]; [|done].
  rewrite harvestAll_loop_good.
  by destruct (harvestAll env ts2 w1) as [[b2|e] w2].
Qed.

Lemma str_app_inv_tail (a b t : string) : a +:+ t = b +:+ t → a = b.
Proof.
  revert b. induction a as [|x a IH]; intros [|y b] E; cbn in E; try done.
  - apply (f_equal String.length) in E. cbn in E. rewrite str_length_app in E. lia.
  - apply (f_equal String.length) in E. cbn in E. rewrite str_length_app in E. lia.
  - injection E as -> E. by rewrite (IH _ E).
Qed.

Lemma docUrl_of_inj (repoUrl meta a b : string) :
  docUrl_of repoUrl a meta = docUrl_of repoUrl b meta → a = b.
Proof.
  unfold docUrl_of. intros E.
  apply (inj (String.app repoUrl)) in E.
  apply (inj (String.app "?verb=GetRecord&identifier=")) in E.
  by apply str_app_inv_tail in E.
Qed.

Lemma sorted_NoDup (ids : gset string) : NoDup (sorted ids).
Proof.
  unfold sorted. rewrite merge_sort_Permutation. apply NoDup_elements.
Qed.

Lemma sorted_length (ids : gset string) : length (sorted ids) = size ids.
Proof. unfold sorted. by rewrite merge_sort_Permutation. Qed.

(** X5. In one set no identifier is requested twice: the curl calls made for
    the set are at most as many as its identifiers and their urls are
    pairwise different. *)
Theorem harvest_ids_no_repeated_request
    (repoTask : RepoTask) (setDest : string) (ids : gset string) st (w : World) :
  let w' := (harvest_ids env repoTask setDest (sorted ids) st w).2 in
  ∃ made, calls w' = calls w ++ made ∧
          length made ≤ size ids ∧ NoDup (snd <$> made).
Proof.
  cbv zeta.
  destruct (harvest_ids_calls env repoTask setDest (sorted ids) st w)
    as (seen & [tail Htail] & Hcalls & _).
  exists (call_of repoTask setDest <$> seen). split; [done|].
  pose proof (sorted_NoDup ids) as Hnd. pose proof (sorted_length ids) as Hlen.
  rewrite Htail in Hnd, Hlen. apply NoDup_app in Hnd as (Hnd & _ & _).
  rewrite length_app in Hlen. rewrite length_fmap. split; [lia|].
  rewrite <- list_fmap_compose.
  apply NoDup_fmap_2_strong; [|done].
  intros a b _ _ E. cbn in E. by apply docUrl_of_inj in E.
Qed.

Lemma replace_colon_free (s : string) :
  mem ":" (replace ":" "-" s) = false ∧
  String.length (replace ":" "-" s) = String.length s.
Proof.
  induction s as [|c s [IH1 IH2]]; cbn [replace mem String.length]; [done|].
  rewrite IH1, IH2. split; [|done]. rewrite orb_false_r.
  destruct (Ascii.eqb_spec c ":") as [->|Hc]; [done|].
  apply Ascii.eqb_neq. congruence.
Qed.

Lemma replace_id (s : string) : mem ":" s = false → replace ":" "-" s = s.
Proof.
  induction s as [|c s IH]; cbn [replace mem]; [done|].
  intros [H1 H2]%orb_false_elim. rewrite (IH H2).
  rewrite Ascii.eqb_sym in H1. by rewrite H1.
Qed.

Lemma replace_inj_dash_free (a b : string) :
  mem "-" a = false → mem "-" b = false →
  replace ":" "-" a = replace ":" "-" b → a = b.
Proof.
  revert b. induction a as [|x a IH]; intros [|y b]; cbn [replace mem]; try done.
  intros [Hx Ha]%orb_false_elim [Hy Hb]%orb_false_elim [= Exy E].
  rewrite (IH _ Ha Hb E). f_equal.
  apply Ascii.eqb_neq in Hx, Hy.
  destruct (Ascii.eqb_spec x ":") as [->|Hx'], (Ascii.eqb_spec y ":") as [->|Hy'];
    congruence.
Qed.

(** X6. The file name made from an identifier has no colon, is as long as the
    identifier, and is the identifier itself when that has no colon. *)
Theorem docDest_file_name (setDest docId : string) :
  ∃ name, docDest_of setDest docId = setDest +:+ "/" +:+ name ∧
          mem ":" name = false ∧
          String.length name = String.length docId ∧
          (mem ":" docId = false → name = docId).
Proof.
  exists (replace ":" "-" docId). destruct (replace_colon_free docId) as [H1 H2].
  repeat split; try done. apply replace_id.
Qed.

(** X7. Identifiers of one set that are all free of [-], or all free of [:],
    have pairwise different destination files. *)
Theorem docDest_distinct (setDest : string) (ids : gset string) :
  (∀ docId, docId ∈ ids → mem "-" docId = false) ∨
  (∀ docId, docId ∈ ids → mem ":" docId = false) →
  NoDup (docDest_of setDest <$> sorted ids).
Proof.
  intros H. apply NoDup_fmap_2_strong; [|apply sorted_NoDup].
  intros a b Ha Hb E. unfold docDest_of in E.
  apply (inj (String.app setDest)) in E. apply (inj (String.app "/")) in E.
  assert (∀ x, x ∈ sorted ids → x ∈ ids) as Hin.
  { intros x Hx. unfold sorted in Hx. rewrite merge_sort_Permutation in Hx.
    by apply elem_of_elements in Hx. }
  destruct H as [H|H].
  - apply replace_inj_dash_free; auto.
  - rewrite !replace_id in E by auto. done.
Qed.

(** X8. [deliver] touches only the file it is given and makes no curl call.
    It raises when the path is missing or is a directory, and whenever it
    raises the world is as before.  When it returns an error the world is as
    before and the error is not the empty string, so it counts as true in
    [if docError].  When it returns [None] the file held a text that
    classifies as a record and now holds the payload. *)
Theorem deliver_postcondition (path : string) (w : World) :
  let w' := (deliver path w).2 in
  calls w' = calls w ∧ tick w' = tick w ∧
  (∀ p, p ≠ path → files w' !! p = files w !! p) ∧
  (files w !! path = None → (deliver path w).1 = Raised FileNotFoundError) ∧
  (files w !! path = Some Dir → (deliver path w).1 = Raised IsADirectoryError) ∧
  match (deliver path w).1 with
  | Ok (Some error) =>
      w' = w ∧ truthy (Some (ErrStr error)) = true ∧
      ∃ text, files w !! path = Some (File text) ∧ deliver_text text = Fail error
  | Ok None =>
      ∃ text payload, files w !! path = Some (File text) ∧
                      deliver_text text = Rewrite payload ∧
                      files w' !! path = Some (File payload)
  | Raised _ => w' = w
  end.
Proof.
  cbv zeta. destruct (files w !! path) as [[text|]|] eqn:E.
  - rewrite (deliver_eq path text w E).
    destruct (deliver_text text) as [payload|error] eqn:Hd; cbn.
    + repeat split; try done.
      * intros p Hp. by rewrite lookup_insert_ne.
      * exists text, payload. by rewrite lookup_insert_eq.
    + repeat split; try done.
      * by rewrite (deliver_text_error_nonempty _ _ Hd).
      * by exists text.
  - unfold deliver, bind, open_read. by rewrite E.
  - unfold deliver, bind, open_read. by rewrite E.
Qed.

(** X9. When curl stores nothing and the destination already holds a file
    without the closing marker of the record envelope, as a payload written
    by an earlier run usually is, the identifier fails and the old file is
    removed. *)
Theorem harvest_doc_empty_fetch_removes_old_copy
    (repoTask : RepoTask) (setDest docId old : string) (w : World) :
  let docDest := docDest_of setDest docId in
  let docUrl :=
    docUrl_of (get (task_url repoTask) "") docId (get (task_meta repoTask) "") in
  curl env (tick w) docDest docUrl = NoOutput →
  files w !! docDest = Some (File old) →
  contains "</GetRecord>" old = false →
  (harvest_doc env repoTask setDest docId w).1 = Ok true ∧
  files (harvest_doc env repoTask setDest docId w).2 !! docDest = None.
Proof.
  intros docDest docUrl Hcurl Hold Hmark. rewrite harvest_doc_eq.
  fold docDest. fold docUrl. unfold response. rewrite Hcurl, Hold.
  assert (∃ e, deliver_text old = Fail e) as [e ->].
  { unfold deliver_text. rewrite Hmark. cbn.
    destruct (contains "</error>" old); [destruct (search errorPat old)|]; eauto. }
  cbn. by rewrite lookup_delete_eq.
Qed.

End WorldFacts.

(** ** More on the classification *)

Section RunFacts.
Import Text Regex Classifier OS Harvest Spec More.
Variable env : Env.

Lemma harvest_ids_no_new_dir (repoTask : RepoTask) (setDest p : string) ids st w :
  files w !! p ≠ Some Dir →
  files (harvest_ids env repoTask setDest ids st w).2 !! p ≠ Some Dir.
Proof.
  revert st w. induction ids as [|docId rest IH]; intros st w Hp; cbn; [done|].
  unfold bind.
  pose proof (harvest_doc_no_new_dir env repoTask setDest docId p w Hp) as H.
  destruct (harvest_doc env repoTask setDest docId w) as [[failed|e] w1];
    cbn in H; [by apply IH | done].
Qed.

Lemma harvest_sets_returns (repoTask : RepoTask) (sets : list RepoSet)
    (D : list string) good w :
  (∀ p, p ∈ D → files w !! p ≠ Some Dir) →
  (∀ repoSet, repoSet ∈ sets →
     (∀ p, p ∈ D → ¬ at_or_above (set_dest repoTask repoSet) p) ∧
     ∀ docId, docId ∈ ids_of repoSet →
              docDest_of (set_dest repoTask repoSet) docId ∈ D) →
  returned (harvest_sets env repoTask (get (task_dest repoTask) "") sets good w).1.
Proof.
  revert good w. induction sets as [|repoSet rest IH]; intros good w HD Hsets;
    cbn; [done|].
  destruct (Hsets repoSet ltac:(by left)) as [HsetD Hdocs].
  unfold set_dest, ids_of in HsetD, Hdocs.
  assert (∀ repoSet', repoSet' ∈ rest →
     (∀ p, p ∈ D → ¬ at_or_above (set_dest repoTask repoSet') p) ∧
     ∀ docId, docId ∈ ids_of repoSet' →
              docDest_of (set_dest repoTask repoSet') docId ∈ D) as Hrest
    by (intros ? ?; apply Hsets; by right).
  unfold bind.
  pose proof (check_dir_touches env
    (get (task_dest repoTask) "" +:+ "/" +:+ get (set_name repoSet) "UNSPECIFIED") w)
    as Htouch.
  pose proof (check_dir_calls env
    (get (task_dest repoTask) "" +:+ "/" +:+ get (set_name repoSet) "UNSPECIFIED") w)
    as [Hret _].
  destruct (check_dir env _ w) as [[ok|e] w1]; cbn in Htouch, Hret; [|done].
  assert (∀ p, p ∈ D → files w1 !! p ≠ Some Dir) as HD1.
  { intros p Hp. rewrite Htouch; [by apply HD|]. by apply HsetD. }
  destruct ok; cbn; [|by apply IH].
  pose proof (harvest_ids_isolated env repoTask
    (get (task_dest repoTask) "" +:+ "/" +:+ get (set_name repoSet) "UNSPECIFIED")
    (from_option sorted [] (set_ids repoSet)) (true, 0) w1) as [Hids _].
  { intros docId Hin. by apply HD1, Hdocs. }
  pose proof (λ p, harvest_ids_no_new_dir repoTask
    (get (task_dest repoTask) "" +:+ "/" +:+ get (set_name repoSet) "UNSPECIFIED")
    p (from_option sorted [] (set_ids repoSet)) (true, 0) w1) as Hnew.
  destruct (harvest_ids env repoTask _ _ _ w1) as [[st|e] w2];
    cbn in Hids, Hnew; [|done].
  apply IH; [|done]. intros p Hp. by apply Hnew, HD1.
Qed.

Lemma plain_name_no_slash (s : string) : plain_name s = true → mem "/" s = false.
Proof.
  unfold plain_name. intros H.
  apply andb_prop in H as [H _]. apply andb_prop in H as [H _].
  apply andb_prop in H as [_ H]. by apply negb_true_iff in H.
Qed.

(** A destination file lies below the directory of its set, which has a name
    without a slash: it is no directory of the task and does not lie above
    one. *)
Lemma doc_path_clear (repoTask : RepoTask) (p q : string) :
  (∀ repoSet, repoSet ∈ get (task_sets repoTask) [] →
     mem "/" (get (set_name repoSet) "UNSPECIFIED") = false) →
  p ∈ doc_paths repoTask → q ∈ dir_paths repoTask → ¬ at_or_above q p.
Proof.
  intros Hnames Hp Hq.
  apply list_elem_of_In, in_concat in Hp as (l & Hl & Hp).
  apply list_elem_of_In, list_elem_of_fmap in Hl as (rs & -> & Hrs).
  apply list_elem_of_In, list_elem_of_fmap in Hp as (docId & -> & _).
  unfold docDest_of, set_dest.
  set (dest := get (task_dest repoTask) "").
  set (name := get (set_name rs) "UNSPECIFIED").
  set (file := replace ":" "-" docId).
  assert (∀ r, dest +:+ "/" +:+ r ≠ dest) as Hlonger.
  { intros r E. apply (f_equal String.length) in E.
    rewrite !str_length_app in E. cbn in E. lia. }
  assert (∀ r, in_dir (dest +:+ "/" +:+ r) dest = false) as Hbelow.
  { intros r. destruct (in_dir _ dest) eqn:E; [|done].
    apply in_dir_shorter in E. rewrite !str_length_app in E. cbn in E. lia. }
  rewrite !str_app_assoc.
  apply elem_of_cons in Hq as [->|Hq].
  - fold dest. intros [E|E]; [by apply Hlonger in E|by rewrite Hbelow in E].
  - apply list_elem_of_fmap in Hq as (rs' & -> & Hrs'). unfold set_dest. fold dest.
    pose proof (Hnames rs' Hrs') as Hname'.
    intros [E|E].
    + apply (inj (String.app dest)) in E. apply (inj (String.app "/")) in E.
      rewrite <- E, mem_app in Hname'. cbn in Hname'.
      by rewrite orb_true_r in Hname'.
    + destruct (in_dir_child _ _ _ Hname' E) as [E'|E'].
      * by apply Hlonger in E'.
      * by rewrite Hbelow in E'.
Qed.

(** X21. [harvest] ends without an exception when the destination root is a
    plain path, the names of the sets and the identifiers are plain names,
    and no destination file of an identifier is a directory at the start:
    then no directory is ever in the place of a destination file, which is
    the one thing that lets [os.unlink] raise outside the [try]. *)
Theorem harvest_returns (repoTask : RepoTask) (w : World) :
  plain_task repoTask →
  (∀ p, p ∈ doc_paths repoTask → files w !! p ≠ Some Dir) →
  returned (harvest env repoTask w).1.
Proof.
  intros [_ Hplain] H.
  assert (∀ p q, p ∈ doc_paths repoTask → q ∈ dir_paths repoTask →
                 ¬ at_or_above q p) as Hclear.
  { intros p q. apply doc_path_clear. intros rs Hrs.
    apply plain_name_no_slash. by apply Hplain. }
  unfold harvest, bind.
  pose proof (check_dir_touches env (get (task_dest repoTask) "") w) as Htouch.
  pose proof (check_dir_calls env (get (task_dest repoTask) "") w) as [Hret _].
  destruct (check_dir env _ w) as [[ok|e] w1]; cbn in Htouch, Hret; [|done].
  destruct ok; cbn; [|done].
  apply (harvest_sets_returns repoTask _ (doc_paths repoTask)).
  - intros p Hp. rewrite Htouch; [by apply H|].
    apply Hclear; [done|]. by left.
  - intros repoSet Hin. split.
    + intros p Hp. apply Hclear; [done|]. right. by apply list_elem_of_fmap_2.
    + intros docId Hid. unfold doc_paths. apply list_elem_of_In, in_concat.
      exists (docDest_of (set_dest repoTask repoSet) <$> ids_of repoSet).
      split; apply list_elem_of_In.
      * by apply (list_elem_of_fmap_2
                    (λ rs, docDest_of (set_dest repoTask rs) <$> ids_of rs)).
      * by apply list_elem_of_fmap_2.
Qed.

(** What a step that succeeds leaves behind. *)
Lemma harvest_doc_success (repoTask : RepoTask) (setDest docId : string) w w' :
  harvest_doc env repoTask setDest docId w = (Ok false, w') →
  is_file (files w' !! docDest_of setDest docId) = true ∧
  ∀ p, is_file (files w !! p) = true → is_file (files w' !! p) = true.
Proof.
  intros H. split; [by rewrite (harvest_doc_file env _ _ _ _ _ _ H)|].
  intros p Hp. destruct (decide (p = docDest_of setDest docId)) as [->|Hne].
  - by rewrite (harvest_doc_file env _ _ _ _ _ _ H).
  - pose proof (harvest_doc_frame env repoTask setDest docId p w Hne) as Hf.
    rewrite H in Hf. cbn in Hf. by rewrite Hf.
Qed.

Lemma failing_ids_none (repoTask : RepoTask) (setDest : string) ids w w' :
  failing_ids env repoTask setDest ids w = (Ok 0, w') →
  (∀ docId, docId ∈ ids → is_file (files w' !! docDest_of setDest docId) = true) ∧
  ∀ p, is_file (files w !! p) = true → is_file (files w' !! p) = true.
Proof.
  revert w. induction ids as [|docId rest IH]; intros w; cbn.
  - intros [= <-]. split; [|done]. intros ? H. by apply elem_of_nil in H.
  - unfold bind, ret, peek.
    pose proof (harvest_doc_flag env repoTask setDest docId w) as Hflag.
    destruct (harvest_doc env repoTask setDest docId w) as [[failed|e] w1] eqn:Hd;
      [|done].
    rewrite <- (Hflag failed w1 eq_refl).
    destruct (failing_ids env repoTask setDest rest w1) as [[n|e] w2] eqn:Hrest;
      [|done].
    destruct failed; [done|]. intros [= -> <-].
    destruct (IH _ Hrest) as [Hall Hkeep].
    destruct (harvest_doc_success _ _ _ _ _ Hd) as [Hthis Hkeep1].
    split; [|by auto].
    intros d [->|Hin]%elem_of_cons; [by apply Hkeep | by apply Hall].
Qed.

Lemma check_dir_keeps_files (dest : string) w :
  ∀ p, is_file (files w !! p) = true →
       is_file (files (check_dir env dest w).2 !! p) = true.
Proof.
  intros p Hp.
  destruct (check_dir_spec env dest w) as (ok & w' & -> & _ & _ & _ & Hnew).
  cbn. destruct (Hnew p) as [->|(_ & E & _)]; [done|]. by rewrite E in Hp.
Qed.

Lemma harvest_sets_true (repoTask : RepoTask) (sets : list RepoSet) good w w' :
  harvest_sets env repoTask (get (task_dest repoTask) "") sets good w = (Ok true, w') →
  (∀ repoSet docId, repoSet ∈ sets → docId ∈ ids_of repoSet →
     is_file (files w' !! docDest_of (set_dest repoTask repoSet) docId) = true) ∧
  ∀ p, is_file (files w !! p) = true → is_file (files w' !! p) = true.
Proof.
  revert good w. induction sets as [|repoSet rest IH]; intros good w; cbn.
  - intros [= -> <-]. split; [|done]. intros ? ? H. by apply elem_of_nil in H.
  - unfold bind.
    pose proof (check_dir_keeps_files
      (get (task_dest repoTask) "" +:+ "/" +:+ get (set_name repoSet) "UNSPECIFIED") w)
      as Hkeep0.
    destruct (check_dir env _ w) as [[ok|e] w1]; cbn in Hkeep0; [|done].
    destruct ok; cbn.
    + rewrite harvest_ids_failing.
      destruct (failing_ids env repoTask _ _ w1) as [[k|e] w2] eqn:Hk; [|done].
      destruct k as [|k]; cbn.
      * intros Hrest. destruct (IH _ _ Hrest) as [Hall Hkeep].
        destruct (failing_ids_none _ _ _ _ _ Hk) as [Hthis Hkeep2].
        split; [|by auto].
        intros rs d [->|Hin]%elem_of_cons Hd; [|by apply Hall].
        apply Hkeep. by apply Hthis.
      * rewrite harvest_sets_observe.
        destruct (observe_sets env repoTask _ rest w2) as [[rs|e] w3]; done.
    + rewrite harvest_sets_observe.
      destruct (observe_sets env repoTask _ rest w1) as [[rs|e] w3]; done.
Qed.

Lemma harvest_true (repoTask : RepoTask) w w' :
  harvest env repoTask w = (Ok true, w') →
  (∀ repoSet docId, repoSet ∈ get (task_sets repoTask) [] →
     docId ∈ ids_of repoSet →
     is_file (files w' !! docDest_of (set_dest repoTask repoSet) docId) = true) ∧
  ∀ p, is_file (files w !! p) = true → is_file (files w' !! p) = true.
Proof.
  unfold harvest, bind.
  pose proof (check_dir_keeps_files (get (task_dest repoTask) "") w) as Hkeep0.
  destruct (check_dir env _ w) as [[ok|e] w1]; cbn in Hkeep0; [|done].
  destruct ok; cbn; [|done].
  intros H. destruct (harvest_sets_true _ _ _ _ _ H) as [Hall Hkeep].
  split; [done | by auto].
Qed.

(** X22. When [harvestAll] returns [True], every identifier of every set of
    every task has a regular file at its destination path at the end of the
    run, and every regular file that was there before the run is still a
    regular file. *)
Theorem harvestAll_true_all_files (repoTasks : list RepoTask) (w w' : World) :
  harvestAll env repoTasks w = (Ok true, w') →
  (∀ repoTask repoSet docId,
     repoTask ∈ repoTasks → repoSet ∈ get (task_sets repoTask) [] →
     docId ∈ ids_of repoSet →
     is_file (files w' !! docDest_of (set_dest repoTask repoSet) docId) = true) ∧
  ∀ p, is_file (files w !! p) = true → is_file (files w' !! p) = true.
Proof.
  unfold harvestAll. generalize true at 1. revert w.
  induction repoTasks as [|repoTask rest IH]; intros w good; cbn.
  - intros [= -> <-]. split; [|done]. intros ? ? ? H. by apply elem_of_nil in H.
  - unfold bind. destruct (harvest env repoTask w) as [[b|e] w1] eqn:Ht; [|done].
    destruct b; cbn.
    + intros Hrest. destruct (IH _ _ Hrest) as [Hall Hkeep].
      destruct (harvest_true _ _ _ Ht) as [Hthis Hkeep1].
      split; [|by auto].
      intros t rs d [->|Hin]%elem_of_cons Hrs Hd; [|by eapply Hall].
      apply Hkeep. by apply Hthis.
    + rewrite harvestAll_loop_observe.
      destruct (observe_all env rest w1) as [[rs|e] w2]; done.
Qed.

(** X23. In a set none of whose destination paths is a directory the loop
    over the identifiers ends without an exception and makes exactly one
    curl call per identifier, in the order of the list, whichever of them
    fail. *)
Theorem harvest_ids_fetches_all (repoTask : RepoTask) (setDest : string)
    (ids : list string) st (w : World) :
  (∀ docId, docId ∈ ids → files w !! docDest_of setDest docId ≠ Some Dir) →
  returned (harvest_ids env repoTask setDest ids st w).1 ∧
  calls (harvest_ids env repoTask setDest ids st w).2
  = calls w ++ (call_of repoTask setDest <$> ids).
Proof. apply harvest_ids_isolated. Qed.

End RunFacts.

Section ClassifierMore.
Import Text Regex Classifier Spec More.

Lemma lstrip_split (s : string) :
  ∃ l, s = l +:+ lstrip s ∧ all_space l = true ∧
       starts_with_space (lstrip s) = false.
Proof.
  induction s as [|c s (l & E & Hl & Hs)]; cbn [lstrip].
  - by exists "".
  - destruct (isspace c) eqn:Hc.
    + exists (String c l). cbn [all_space]. rewrite Hc, Hl.
      rewrite str_app_cons, <- E. done.
    + exists "". by cbn.
Qed.

Lemma rstrip_split (s : string) :
  ∃ r, s = rstrip s +:+ r ∧ all_space r = true ∧
       ends_with_space (rstrip s) = false.
Proof.
  induction s as [|c s (r & E & Hr & He)]; cbn [rstrip].
  - by exists "".
  - destruct (rstrip s) as [|d t] eqn:Hrs.
    + cbn in E. subst s. destruct (isspace c) eqn:Hc.
      * exists (String c r). cbn [all_space]. by rewrite Hc, Hr.
      * exists r. cbn [ends_with_space]. by rewrite Hc.
    + exists r. rewrite str_app_cons, <- E. done.
Qed.

Lemma rstrip_keeps_start (s : string) :
  starts_with_space s = false → starts_with_space (rstrip s) = false.
Proof.
  destruct s as [|c s]; cbn [rstrip starts_with_space]; [done|].
  intros Hc. destruct (rstrip s); [|done]. by rewrite Hc.
Qed.

Lemma lstrip_id (s : string) : starts_with_space s = false → lstrip s = s.
Proof. destruct s as [|c s]; cbn [lstrip starts_with_space]; [done|]. by intros ->. Qed.

Lemma rstrip_id (s : string) : ends_with_space s = false → rstrip s = s.
Proof.
  induction s as [|c s IH]; cbn [rstrip]; [done|].
  destruct s as [|d t].
  - cbn. by intros ->.
  - intros H. cbn [ends_with_space] in H. by rewrite (IH H).
Qed.

Lemma strip_split (s : string) :
  ∃ l r, s = l +:+ strip s +:+ r ∧ all_space l = true ∧ all_space r = true ∧
         starts_with_space (strip s) = false ∧ ends_with_space (strip s) = false.
Proof.
  unfold strip.
  destruct (lstrip_split s) as (l & El & Hl & Hs).
  destruct (rstrip_split (lstrip s)) as (r & Er & Hr & He).
  exists l, r. rewrite <- Er, <- El. repeat split; try done.
  by apply rstrip_keeps_start.
Qed.

(** X10. The payload [deliver] writes is the group of the match without its
    leading and trailing white space: nothing but white space is dropped,
    the payload neither starts nor ends with white space, and stripping it
    again gives the same text. *)
Theorem deliver_text_payload_is_stripped_group (text payload : string) :
  deliver_text text = Rewrite payload →
  ∃ m l r, search metadataPat text = Some m ∧
           group 1 m = l +:+ payload +:+ r ∧
           all_space l = true ∧ all_space r = true ∧
           starts_with_space payload = false ∧
           ends_with_space payload = false ∧
           strip payload = payload.
Proof.
  unfold deliver_text.
  destruct (contains "</GetRecord>" text && contains "</metadata>" text).
  2: { destruct (contains "</error>" text); [destruct (search errorPat text)|];
       discriminate. }
  destruct (search metadataPat text) as [m|]; [|discriminate].
  intros [= <-]. destruct (strip_split (group 1 m)) as (l & r & E & Hl & Hr & Hs & He).
  exists m, l, r. repeat split; try done.
  unfold strip at 1. by rewrite (lstrip_id _ Hs), (rstrip_id _ He).
Qed.

Lemma search_some r (pre rest : string) :
  is_Some (match_here r rest) → is_Some (search r (pre +:+ rest)).
Proof.
  intros [m Hm]. induction pre as [|x pre IH].
  - exists m. by apply search_here.
  - rewrite str_app_cons. cbn [search].
    by destruct (match_here r (String x (pre +:+ rest))).
Qed.

(** The message made from an error element has a colon; the three fixed
    messages have none. *)
Lemma error_message_colon (code msg fixed : string) :
  mem ":" fixed = false → code +:+ ": " +:+ msg ≠ fixed.
Proof.
  intros Hfixed E. rewrite <- E, !mem_app in Hfixed. cbn in Hfixed.
  by rewrite orb_true_r in Hfixed.
Qed.

(** X11. "No metadata found" is the result exactly when the text has both
    closing markers, of the record envelope and of the metadata, and no
    "<metadata" of the text is followed by a ">" and, after that, by a
    closing metadata tag. *)
Theorem no_metadata_found_iff (text : string) :
  deliver_text text = Fail "No metadata found" ↔
  contains "</GetRecord>" text = true ∧
  contains "</metadata>" text = true ∧
  ¬ ∃ pre attrs rest post,
      text = pre +:+ "<metadata" +:+ attrs +:+ ">" +:+ rest +:+
             "</metadata>" +:+ post.
Proof.
  unfold deliver_text. split.
  - destruct (contains "</GetRecord>" text); cbn [andb].
    2: { destruct (contains "</error>" text); [|done].
         destruct (search errorPat text); [|done].
         intros [= E]. by apply error_message_colon in E. }
    destruct (contains "</metadata>" text).
    2: { destruct (contains "</error>" text); [|done].
         destruct (search errorPat text); [|done].
         intros [= E]. by apply error_message_colon in E. }
    intros Hfail. split; [done|]. split; [done|].
    intros (pre & attrs & rest & post & ->).
    destruct (search_some metadataPat pre _ (metadataPat_here attrs rest post))
      as [m Hm].
    by rewrite Hm in Hfail.
  - intros (-> & -> & Hnone). cbn [andb].
    destruct (search metadataPat text) as [m|] eqn:Hm; [|done].
    exfalso. apply Hnone.
    destruct (metadataPat_inv _ _ Hm) as (pre & attrs & inner & post & E & _).
    by exists pre, attrs, inner, post.
Qed.

(** X12. "Could not parse error message" is the result exactly when the
    text lacks one of the two closing markers of a record, has a closing
    error tag, and no "<error" of the text is followed by a quoted code
    attribute, a ">" without another ">" in between and, after that, by a
    closing error tag. *)
Theorem could_not_parse_iff (text : string) :
  deliver_text text = Fail "Could not parse error message" ↔
  contains "</GetRecord>" text && contains "</metadata>" text = false ∧
  contains "</error>" text = true ∧
  ¬ ∃ pre a code b msg post q1 q2,
      text = pre +:+ "<error" +:+ a +:+ "code=" +:+
             String q1 (code +:+ String q2 (b +:+ ">" +:+ msg +:+
                                            "</error>" +:+ post)) ∧
      is_quote q1 = true ∧ is_quote q2 = true ∧
      mem squote code = false ∧ mem dquote code = false ∧ mem ">" b = false.
Proof.
  unfold deliver_text. split.
  - destruct (contains "</GetRecord>" text && contains "</metadata>" text).
    { by destruct (search metadataPat text). }
    destruct (contains "</error>" text); [|done].
    intros Hfail. split; [done|]. split; [done|].
    intros (pre & a & code & b & msg & post & q1 & q2 & -> & ? & ? & ? & ? & ?).
    destruct (search_some errorPat pre _
                (errorPat_here a code b msg post q1 q2
                   ltac:(done) ltac:(done) ltac:(done) ltac:(done) ltac:(done)))
      as [m Hm].
    rewrite Hm in Hfail. injection Hfail as Hfail.
    by apply error_message_colon in Hfail.
  - intros (-> & -> & Hnone).
    destruct (search errorPat text) as [m|] eqn:Hm; [|done].
    exfalso. apply Hnone.
    destruct (errorPat_inv _ _ Hm)
      as (pre & a & code & b & msg & post & q1 & q2 & E & _ & ? & ? & ? & ? & ? & _).
    by exists pre, a, code, b, msg, post, q1, q2.
Qed.

End ClassifierMore.

(** ** Messages *)

Section LoggingFacts.
Import Logging More.

Lemma perform_sublist (v : nat) (c : logcall) (e1 e2 : list string) :
  e1 `sublist_of` e2 → perform v c e1 `sublist_of` perform (S v) c e2.
Proof.
  intros H.
  destruct c; cbn; unfold error, errorln, info, infoln, extra, extraln;
    repeat match goal with
           | |- context [?a <? ?b] => destruct (Nat.ltb_spec a b)
           end; try lia; try done;
    try (by apply sublist_app); by apply sublist_inserts_r.
Qed.

Lemma perform_all_sublist (v : nat) (cs : list logcall) (e1 e2 : list string) :
  e1 `sublist_of` e2 →
  perform_all v cs e1 `sublist_of` perform_all (S v) cs e2.
Proof.
  revert e1 e2. induction cs as [|c cs IH]; intros e1 e2 H; cbn; [done|].
  by apply IH, perform_sublist.
Qed.

(** X13. Raising the verbosity only adds output: what a sequence of message
    calls writes at one level is what it writes at the next level with some
    messages left out.  At level 0 nothing is written, and every level from
    3 on writes the same. *)
Theorem verbosity_only_adds (v : nat) (cs : list logcall) (stderr : list string) :
  perform_all 0 cs stderr = stderr ∧
  perform_all v cs stderr `sublist_of` perform_all (S v) cs stderr ∧
  (3 ≤ v → perform_all v cs stderr = perform_all 3 cs stderr).
Proof.
  split; [|split].
  - unfold perform_all. revert stderr.
    induction cs as [|c cs IH]; intros stderr; cbn [foldl]; [done|].
    replace (perform 0 c stderr) with stderr by by destruct c. apply IH.
  - by apply perform_all_sublist.
  - intros Hv. unfold perform_all. revert stderr.
    induction cs as [|c cs IH]; intros stderr; cbn [foldl]; [done|].
    rewrite IH. f_equal.
    destruct c; cbn; unfold error, errorln, info, infoln, extra, extraln;
      repeat match goal with
             | |- context [?a <? ?b] => destruct (Nat.ltb_spec a b)
             end; try lia; done.
Qed.

End LoggingFacts.

(** ** The selection of repositories on the command line *)

Section CliFacts.
Import Text Cli More.

Lemma split_go_join (sep : ascii) (s : string) :
  let '(piece, pieces) := split_go sep s in
  join sep (piece :: pieces) = s ∧
  Forall (λ p, mem sep p = false) (piece :: pieces).
Proof.
  induction s as [|c s IH]; cbn [split_go].
  - split; [done|]. by repeat constructor.
  - destruct (split_go sep s) as [piece pieces]. destruct IH as [Ej Hf].
    destruct (Ascii.eqb_spec c sep) as [->|Hc].
    + split.
      * change (join sep ("" :: piece :: pieces))
          with ("" +:+ String sep (join sep (piece :: pieces))).
        by rewrite Ej.
      * by constructor.
    + apply Forall_cons in Hf as [Hp Hps]. split.
      * destruct pieces as [|p2 ps]; cbn in Ej |- *; by rewrite Ej.
      * constructor; [|done]. cbn [mem]. rewrite Hp, orb_false_r.
        apply Ascii.eqb_neq. congruence.
Qed.

Lemma split_join (sep : ascii) (piece : string) (pieces : list string) :
  Forall (λ p, mem sep p = false) (piece :: pieces) →
  split_go sep (join sep (piece :: pieces)) = (piece, pieces).
Proof.
  revert piece. induction pieces as [|p2 ps IH]; intros piece Hf.
  - apply Forall_cons in Hf as [Hp _]. cbn [join].
    induction piece as [|c piece IHp]; cbn [split_go mem] in *; [done|].
    apply orb_false_elim in Hp as [Hc Hp]. rewrite (IHp Hp).
    rewrite Ascii.eqb_sym in Hc. by rewrite Hc.
  - apply Forall_cons in Hf as [Hp Hps].
    change (join sep (piece :: p2 :: ps))
      with (piece +:+ String sep (join sep (p2 :: ps))).
    induction piece as [|c piece IHp]; cbn [mem] in Hp.
    + cbn [String.append split_go]. rewrite (IH _ Hps). by rewrite Ascii.eqb_refl.
    + apply orb_false_elim in Hp as [Hc Hp]. rewrite str_app_cons.
      cbn [split_go]. rewrite (IHp Hp).
      rewrite Ascii.eqb_sym in Hc. by rewrite Hc.
Qed.

(** X14. The option [-r]: the empty string selects every repository; any
    other value selects the pieces between its commas, which are free of
    commas and joined by commas give the value back.  So a repository whose
    id has a comma cannot be selected. *)
Theorem repos_of_arg_pieces (repo : string) :
  (repo = "" → repos_of_arg repo = None) ∧
  (repo ≠ "" →
   ∃ piece pieces,
     repos_of_arg repo = Some (list_to_set (piece :: pieces)) ∧
     join "," (piece :: pieces) = repo ∧
     Forall (λ p, mem "," p = false) (piece :: pieces)).
Proof.
  split; [by intros ->|].
  intros Hne. unfold repos_of_arg, split.
  destruct (String.eqb_spec repo ""); [done|].
  pose proof (split_go_join "," repo) as H.
  destruct (split_go "," repo) as [piece pieces]. destruct H as [Ej Hf].
  by exists piece, pieces.
Qed.

(** X15. Ids free of commas, joined by commas, select exactly these ids,
    with one exception: the single empty id gives the empty value, which
    selects every repository. *)
Theorem repos_of_arg_join (piece : string) (pieces : list string) :
  Forall (λ p, mem "," p = false) (piece :: pieces) →
  repos_of_arg (join "," (piece :: pieces))
  = if decide (piece :: pieces = [""]) then None
    else Some (list_to_set (piece :: pieces)).
Proof.
  intros Hf. unfold repos_of_arg, split. rewrite (split_join _ _ _ Hf).
  destruct (String.eqb_spec (join "," (piece :: pieces)) "") as [E|E].
  - apply (f_equal (split_go ",")) in E. rewrite (split_join _ _ _ Hf) in E.
    cbn in E. injection E as -> ->. by rewrite decide_True.
  - rewrite decide_False; [done|]. intros [= -> ->]. by apply E.
Qed.

End CliFacts.

(** ** The task description *)

Section ConfigFacts.
Import OS Config More.

Lemma read_repo_cases (selectRepos : option (gset string)) (rElem : Element) :
  match read_repo selectRepos rElem with
  | Returns picked =>
      ∃ repoName sets,
        attrib_of rElem !! "id" = Some repoName ∧
        (skipped selectRepos repoName = false →
         read_sets (findall "output-set" rElem) = Returns sets) ∧
        picked =
          if skipped selectRepos repoName then None
          else Some {| ri_name := repoName;
                       ri_sets := sets;
                       ri_url := last_text "baseurl" rElem;
                       ri_meta := last_text "metadataprefix" rElem;
                       ri_dest := last_text "recordpath" rElem |}
  | Raises e =>
      (e = KeyError "id" ∧ attrib_of rElem !! "id" = None) ∨
      (e = KeyError "name" ∧ selected selectRepos rElem ∧
       ∃ elem, elem ∈ findall "output-set" rElem ∧ attrib_of elem !! "name" = None)
  end.
Proof.
  unfold read_repo, selected.
  destruct (attrib_of rElem !! "id") as [repoName|] eqn:Hid; [|by left].
  destruct (skipped selectRepos repoName) eqn:Hskip.
  { exists repoName, []. by rewrite Hskip. }
  assert (match read_sets (findall "output-set" rElem) with
          | Returns _ => True
          | Raises e => e = KeyError "name" ∧
              ∃ elem, elem ∈ findall "output-set" rElem ∧
                      attrib_of elem !! "name" = None
          end) as Hsets.
  { induction (findall "output-set" rElem) as [|elem rest IH]; cbn; [done|].
    unfold read_set. destruct (attrib_of elem !! "name") eqn:Hname.
    - destruct (read_sets rest); [done|].
      destruct IH as (-> & e' & Hin & He'). split; [done|].
      exists e'. split; [by right | done].
    - split; [done|]. exists elem. split; [by left | done]. }
  destruct (read_sets (findall "output-set" rElem)) as [sets|e].
  - exists repoName, sets. by rewrite Hskip.
  - right. destruct Hsets as (-> & Hmissing). by eauto.
Qed.

Lemma read_sets_returns (elems : list Element) :
  (∀ elem, elem ∈ elems → is_Some (attrib_of elem !! "name")) →
  ∃ sets, read_sets elems = Returns sets ∧ length sets = length elems.
Proof.
  induction elems as [|elem rest IH]; intros H; cbn; [by exists []|].
  destruct (H elem ltac:(by left)) as [name Hname].
  destruct IH as (sets & -> & Hlen); [intros e He; apply H; by right|].
  unfold read_set. rewrite Hname. eexists. split; [done|]. cbn. by rewrite Hlen.
Qed.

Lemma read_repos_select (sel : gset string) (rElems : list Element) all :
  read_repos None rElems = Returns all →
  read_repos (Some sel) rElems = Returns (filter (λ r, ri_name r ∈ sel) all).
Proof.
  revert all. induction rElems as [|rElem rest IH]; intros all; cbn [read_repos].
  - by intros [= <-].
  - pose proof (read_repo_cases None rElem) as Hn.
    pose proof (read_repo_cases (Some sel) rElem) as Hs.
    destruct (read_repo None rElem) as [picked|]; [|done].
    destruct Hn as (repoName & sets & Hid & Hsets & ->). cbn [skipped] in *.
    destruct (read_repos None rest) as [repos|]; [|done].
    intros [= <-]. rewrite (IH repos eq_refl).
    unfold read_repo in Hs |- *. rewrite Hid in Hs |- *.
    rewrite (Hsets eq_refl) in Hs |- *. cbn [skipped].
    rewrite filter_cons. cbn [ri_name].
    destruct (decide (repoName ∈ sel)) as [Hin|Hout].
    + by rewrite bool_decide_eq_false_2 by (by intros ?).
    + by rewrite bool_decide_eq_true_2.
Qed.

(** X16. Selecting repositories is filtering: when [readTask] without a
    selection returns a list of tasks, [readTask] with a selection returns
    the tasks of that list whose name is selected, in the same order. *)
Theorem readTask_selection_is_filter (parse : string → option Element)
    (config : string) (sel : gset string) (w : World) (all : list RepoInfo) :
  readTask parse config None w = Returns (Some all) →
  readTask parse config (Some sel) w
  = Returns (Some (filter (λ r, ri_name r ∈ sel) all)).
Proof.
  unfold readTask. destruct (files w !! config) as [[text|]|]; try done.
  destruct (parse text) as [root|]; [|done].
  destruct (read_repos None _) as [repos|] eqn:E; [|done].
  intros [= <-]. by rewrite (read_repos_select sel _ _ E).
Qed.

Lemma read_repos_outcome (selectRepos : option (gset string)) (rElems : list Element) :
  let fine :=
    ∀ rElem, rElem ∈ rElems →
      is_Some (attrib_of rElem !! "id") ∧
      (selected selectRepos rElem →
       ∀ elem, elem ∈ findall "output-set" rElem →
               is_Some (attrib_of elem !! "name")) in
  match read_repos selectRepos rElems with
  | Returns repos =>
      fine ∧
      ri_name <$> repos
      = filter (λ n, skipped selectRepos n = false)
          (omap (λ rElem, attrib_of rElem !! "id") rElems)
  | Raises e => ¬ fine ∧ (e = KeyError "id" ∨ e = KeyError "name")
  end.
Proof.
  cbv zeta. induction rElems as [|rElem rest IH]; cbn [read_repos].
  - split; [|done]. intros ? H. by apply elem_of_nil in H.
  - pose proof (read_repo_cases selectRepos rElem) as Hr.
    destruct (read_repo selectRepos rElem) as [picked|e].
    + destruct Hr as (repoName & sets & Hid & Hsets & ->).
      destruct (read_repos selectRepos rest) as [repos|e].
      * destruct IH as [Hfine Hnames]. split.
        -- intros r [->|Hin]%elem_of_cons; [|by apply Hfine].
           split; [by eauto|].
           intros (n & Hn & Hskip) elem Helem.
           rewrite Hid in Hn. injection Hn as <-.
           specialize (Hsets Hskip). clear -Hsets Helem.
           revert sets Hsets. induction (findall "output-set" rElem)
             as [|e0 l IHl]; intros sets Hsets; [by apply elem_of_nil in Helem|].
           cbn in Hsets. unfold read_set in Hsets.
           destruct (attrib_of e0 !! "name") eqn:Hname; [|done].
           destruct (read_sets l) as [sets'|] eqn:Hl; [|done].
           apply elem_of_cons in Helem as [->|Hin]; [by rewrite Hname|].
           by apply (IHl Hin sets').
        -- assert (omap (λ rElem, attrib_of rElem !! "id") (rElem :: rest)
                   = repoName :: omap (λ rElem, attrib_of rElem !! "id") rest)
             as -> by (cbn; by rewrite Hid).
           rewrite filter_cons.
           destruct (skipped selectRepos repoName) eqn:Hskip.
           ++ by rewrite decide_False.
           ++ rewrite decide_True by done. cbn. by rewrite Hnames.
      * destruct IH as [Hbad He]. split; [|done].
        intros Hfine. apply Hbad. intros r Hin. apply Hfine. by right.
    + split.
      * intros Hfine. destruct (Hfine rElem ltac:(by left)) as [[n Hn] Hsel].
        destruct Hr as [[_ Hnone]|(_ & Hs & elem & Hin & Hnone)]; [congruence|].
        destruct (Hsel Hs elem Hin) as [? ?]. congruence.
      * destruct Hr as [[-> _]|[-> _]]; auto.
Qed.

(** X17. [readTask] on a description that parses returns a list of tasks
    exactly when every [repository] element of the tree, at whatever depth
    and selected or not, has an [id] and every [output-set] child of a
    selected repository has a [name]; otherwise it raises [KeyError] for
    'id' or 'name'. *)
Theorem readTask_returns_iff (parse : string → option Element)
    (config text : string) (root : Element)
    (selectRepos : option (gset string)) (w : World) :
  files w !! config = Some (File text) →
  parse text = Some root →
  let fine :=
    ∀ rElem, rElem ∈ iter_tag "repository" root →
      is_Some (attrib_of rElem !! "id") ∧
      (selected selectRepos rElem →
       ∀ elem, elem ∈ findall "output-set" rElem →
               is_Some (attrib_of elem !! "name")) in
  (fine ↔ ∃ repos, readTask parse config selectRepos w = Returns (Some repos)) ∧
  (¬ fine ↔ ∃ key, (key = "id" ∨ key = "name") ∧
                   readTask parse config selectRepos w = Raises (KeyError key)).
Proof.
  intros Hfile Hparse. cbv zeta. unfold readTask. rewrite Hfile, Hparse.
  pose proof (read_repos_outcome selectRepos (iter_tag "repository" root)) as H.
  cbv zeta in H.
  destruct (read_repos selectRepos (iter_tag "repository" root)) as [repos|e].
  - destruct H as [Hfine _]. split; split.
    + by eauto.
    + done.
    + done.
    + by intros (key & _ & ?).
  - destruct H as [Hbad He]. split; split.
    + done.
    + by intros [? ?].
    + intros _. destruct He as [->| ->]; eauto.
    + done.
Qed.

(** X18. The tasks [readTask] returns are one per selected [repository]
    element, in document order: their names are the ids of the repository
    elements of the tree, the nested ones too, with the ids that are not
    selected left out. *)
Theorem readTask_names_in_document_order (parse : string → option Element)
    (config text : string) (root : Element)
    (selectRepos : option (gset string)) (w : World) (repos : list RepoInfo) :
  files w !! config = Some (File text) →
  parse text = Some root →
  readTask parse config selectRepos w = Returns (Some repos) →
  ri_name <$> repos
  = filter (λ n, skipped selectRepos n = false)
      (omap (λ rElem, attrib_of rElem !! "id") (iter_tag "repository" root)).
Proof.
  intros Hfile Hparse. unfold readTask. rewrite Hfile, Hparse.
  pose proof (read_repos_outcome selectRepos (iter_tag "repository" root)) as H.
  cbv zeta in H.
  destruct (read_repos selectRepos (iter_tag "repository" root)) as [rs|e]; [|done].
  intros [= <-]. by destruct H.
Qed.

Lemma last_text_last (tag : string) (rElem : Element) :
  last_text tag rElem = text_of <$> last (findall tag rElem).
Proof.
  unfold last_text.
  induction (findall tag rElem) as [|x l IH] using rev_ind; [done|].
  by rewrite foldl_snoc, last_snoc.
Qed.

(** X19. Of several [baseurl], [metadataprefix] or [recordpath] children of
    a repository the last one counts, and the key is absent when there is
    none; the name is the [id]; there is one set per [output-set] child. *)
Theorem read_repo_fields (selectRepos : option (gset string))
    (rElem : Element) (repoInfo : RepoInfo) :
  read_repo selectRepos rElem = Returns (Some repoInfo) →
  attrib_of rElem !! "id" = Some (ri_name repoInfo) ∧
  ri_url repoInfo = text_of <$> last (findall "baseurl" rElem) ∧
  ri_meta repoInfo = text_of <$> last (findall "metadataprefix" rElem) ∧
  ri_dest repoInfo = text_of <$> last (findall "recordpath" rElem) ∧
  Forall2 (λ elem setInfo, attrib_of elem !! "name" = Some (si_name setInfo))
    (findall "output-set" rElem) (ri_sets repoInfo).
Proof.
  unfold read_repo.
  destruct (attrib_of rElem !! "id") as [repoName|]; [|done].
  destruct (skipped selectRepos repoName); [done|].
  destruct (read_sets (findall "output-set" rElem)) as [sets|] eqn:Hsets; [|done].
  intros [= <-]. cbn. rewrite !last_text_last. repeat split; try done.
  revert sets Hsets. induction (findall "output-set" rElem) as [|elem l IH];
    intros sets; cbn.
  - intros [= <-]. constructor.
  - unfold read_set. destruct (attrib_of elem !! "name") eqn:Hname; [|done].
    destruct (read_sets l) as [sets'|]; [|done]. intros [= <-].
    constructor; [done | by apply IH].
Qed.

(** X20. The identifiers of a set are the texts of the [id] children of its
    [output-set] element, each once however often it occurs; an [id] element
    without text contributes [None]. *)
Theorem read_set_ids (elem : Element) (setInfo : SetInfo) :
  read_set elem = Returns setInfo →
  attrib_of elem !! "name" = Some (si_name setInfo) ∧
  (∀ t, t ∈ si_ids setInfo ↔
        ∃ c, c ∈ children_of elem ∧ tag_of c = "id" ∧ text_of c = t) ∧
  size (si_ids setInfo) ≤ length (findall "id" elem).
Proof.
  unfold read_set. destruct (attrib_of elem !! "name") as [name|]; [|done].
  intros [= <-]. cbn. split; [done|]. split.
  - intros t. rewrite elem_of_list_to_set, list_elem_of_fmap. unfold findall.
    split.
    + intros (c & -> & [Htag Hin]%list_elem_of_filter). by exists c.
    + intros (c & Hin & Htag & <-). exists c. split; [done|].
      by apply list_elem_of_filter.
  - rewrite <- (length_fmap text_of).
    induction (text_of <$> findall "id" elem) as [|t l IH].
    + by rewrite list_to_set_nil, size_empty.
    + rewrite list_to_set_cons, size_union_alt, size_singleton. cbn [length].
      pose proof (subseteq_size (list_to_set l ∖ {[t]} : gset (option string))
                    (list_to_set l) ltac:(set_solver)).
      lia.
Qed.

End ConfigFacts.

(** ** The further properties at concrete inputs *)

Section ConcreteMore.
Import Text Regex Classifier OS Harvest Spec Demo Logging Config Cli More DemoMore.

Example os_split_examples :
  os_split "d/s/t" = ("d/s", "t") ∧ os_split "d//e" = ("d", "e") ∧
  os_split "/a" = ("/", "a") ∧ os_split "d/e/" = ("d/e", "") ∧
  os_split "t" = ("", "t") ∧
  makedirs_head "d/s/t" = Some "d/s" ∧ makedirs_head "d/e/" = Some "d" ∧
  makedirs_head "/a" = None ∧ makedirs_head "t" = None.
Proof. repeat split; reflexivity. Qed.

(** The directory check makes the directories above the path, and fails
    without a change when one of them is a regular file. *)
Example check_dir_makes_parents :
  (check_dir echo "d/e/f" empty_world).1 = Ok true ∧
  files (check_dir echo "d/e/f" empty_world).2
  = {["d" := Dir; "d/e" := Dir; "d/e/f" := Dir]} ∧
  (check_dir echo "d/e/f" root_is_file).1 = Ok false ∧
  files (check_dir echo "d/e/f" root_is_file).2 = files root_is_file.
Proof. repeat split; vm_compute; reflexivity. Qed.

(** A directory made above the directory of one set is in the way of an
    identifier of a later set, as a directory of a set itself can be. *)
Example harvest_aborts_on_parent_directory :
  (harvest echo (task_of "d" [set_of "s/t/v" ∅; set_of "s" {["t"]}]) empty_world).1
  = Raised IsADirectoryError.
Proof. vm_compute. reflexivity. Qed.

Lemma harvestAll_keeps_directories_witness :
  files with_old_file !! "d/s" = Some Dir ∧
  files (harvestAll echo [plain] with_old_file).2 !! "d/s" = Some Dir.
Proof.
  split; [reflexivity|].
  apply (harvestAll_keeps_directories echo [plain] with_old_file "d/s").
  reflexivity.
Defined.

(** The task [plain] is a plain task. *)
Lemma plain_is_plain :
  doc_paths plain = ["d/s/a"; "d/s/b-c"] ∧
  dir_paths plain = ["d"; "d/s"] ∧
  plain_task plain.
Proof.
  split; [reflexivity|]. split; [reflexivity|]. split; [reflexivity|].
  intros repoSet Hin. apply list_elem_of_In in Hin. cbn in Hin.
  destruct Hin as [<-|[]]. split; [reflexivity|].
  assert (ids_of (set_of "s" {["a"; "b:c"]}) = ["a"; "b:c"]) as ->
    by (vm_compute; reflexivity).
  intros docId Hid. apply list_elem_of_In in Hid. cbn [In] in Hid.
  destruct Hid as [<-|[<-|[]]]; reflexivity.
Defined.

Lemma harvest_touches_only_task_paths_witness :
  doc_paths plain = ["d/s/a"; "d/s/b-c"] ∧
  dir_paths plain = ["d"; "d/s"] ∧
  files (harvest echo plain with_old_file).2 !! "d/s/old" = Some (File "kept").
Proof.
  destruct plain_is_plain as (Hdocs & Hdirs & Hplain).
  split; [exact Hdocs|]. split; [exact Hdirs|].
  rewrite (harvest_touches_only_task_paths echo plain with_old_file "d/s/old");
    [reflexivity|exact Hplain|reflexivity|reflexivity| |].
  - rewrite Hdocs. apply (bool_decide_unpack _). vm_compute. reflexivity.
  - rewrite Hdirs. intros q Hq. apply list_elem_of_In in Hq. cbn [In] in Hq.
    destruct Hq as [<-|[<-|[]]]; intros [E|E];
      try discriminate E; vm_compute in E; discriminate E.
Defined.

Lemma docDest_distinct_witness :
  NoDup (docDest_of "d/s" <$> sorted {["a"; "b:c"]}).
Proof.
  apply (docDest_distinct "d/s" {["a"; "b:c"]}). left.
  intros docId [->%elem_of_singleton | ->%elem_of_singleton]%elem_of_union;
    reflexivity.
Defined.

Lemma harvest_doc_empty_fetch_removes_old_copy_witness :
  files with_old_file !! "d/s/old" = Some (File "kept") ∧
  (harvest_doc silent plain "d/s" "old" with_old_file).1 = Ok true ∧
  files (harvest_doc silent plain "d/s" "old" with_old_file).2 !! "d/s/old" = None.
Proof.
  split; [reflexivity|].
  apply (harvest_doc_empty_fetch_removes_old_copy silent plain "d/s" "old" "kept"
           with_old_file); reflexivity.
Defined.

Lemma deliver_text_payload_is_stripped_group_witness :
  ∃ m l r, search metadataPat (record_of " <dc>x</dc> ") = Some m ∧
           group 1 m = l +:+ "<dc>x</dc>" +:+ r ∧
           all_space l = true ∧ all_space r = true ∧
           starts_with_space "<dc>x</dc>" = false ∧
           ends_with_space "<dc>x</dc>" = false ∧
           strip "<dc>x</dc>" = "<dc>x</dc>".
Proof.
  apply (deliver_text_payload_is_stripped_group (record_of " <dc>x</dc> ")).
  reflexivity.
Defined.

Lemma repos_of_arg_join_witness :
  join "," ["ehri"; "niod"] = "ehri,niod" ∧
  repos_of_arg "ehri,niod" = Some {["ehri"; "niod"]}.
Proof.
  split; [reflexivity|].
  refine (eq_trans (repos_of_arg_join "ehri" ["niod"] _) _).
  - repeat constructor.
  - vm_compute. reflexivity.
Defined.

Lemma readTask_selection_is_filter_witness :
  ri_name <$> default []
    (match readTask parse_demo "config.xml" None config_world with
     | Returns r => r | Raises _ => None end) = ["r1"; "r2"] ∧
  ∃ repos, readTask parse_demo "config.xml" (Some {["r2"]}) config_world
           = Returns (Some repos) ∧
           ri_name <$> repos = ["r2"].
Proof.
  split; [vm_compute; reflexivity|].
  eexists. split.
  - apply (readTask_selection_is_filter parse_demo "config.xml" {["r2"]} config_world).
    vm_compute. reflexivity.
  - vm_compute. reflexivity.
Defined.

Lemma readTask_returns_iff_witness :
  (∃ repos, readTask parse_demo "flawed.xml" (Some {["r1"]}) config_world
            = Returns (Some repos)) ∧
  (∃ key, (key = "id" ∨ key = "name") ∧
          readTask parse_demo "flawed.xml" None config_world = Raises (KeyError key)).
Proof.
  split.
  - apply (readTask_returns_iff parse_demo "flawed.xml" "flawed" flawed
             (Some {["r1"]}) config_world eq_refl eq_refl).
    apply (readTask_returns_iff parse_demo "flawed.xml" "flawed" flawed
             (Some {["r1"]}) config_world eq_refl eq_refl).
    eexists. vm_compute. reflexivity.
  - apply (readTask_returns_iff parse_demo "flawed.xml" "flawed" flawed
             None config_world eq_refl eq_refl).
    apply (readTask_returns_iff parse_demo "flawed.xml" "flawed" flawed
             None config_world eq_refl eq_refl).
    exists "name". split; [by right|]. vm_compute. reflexivity.
Defined.

Lemma readTask_names_in_document_order_witness :
  ∃ repos, readTask parse_demo "config.xml" None config_world = Returns (Some repos) ∧
           ri_name <$> repos = ["r1"; "r2"].
Proof.
  eexists. split; [vm_compute; reflexivity|].
  refine (eq_trans (readTask_names_in_document_order parse_demo "config.xml"
                      "description" description None config_world _
                      eq_refl eq_refl _) _).
  - vm_compute. reflexivity.
  - vm_compute. reflexivity.
Defined.

Lemma read_repo_fields_witness :
  ∃ repoInfo, read_repo None repo_r1 = Returns (Some repoInfo) ∧
              ri_url repoInfo = Some (Some "http://b/oai") ∧
              ri_dest repoInfo = None.
Proof.
  eexists. split; [vm_compute; reflexivity|].
  pose proof (read_repo_fields None repo_r1 _ eq_refl) as (_ & Hurl & _ & Hdest & _).
  split; [exact Hurl | exact Hdest].
Defined.

Lemma read_set_ids_witness :
  ∃ setInfo, read_set set_s = Returns setInfo ∧
             size (si_ids setInfo) ≤ 3 ∧
             si_ids setInfo = {[Some "x"; None]}.
Proof.
  eexists. split; [vm_compute; reflexivity|].
  split; [|vm_compute; reflexivity].
  exact (proj2 (proj2 (read_set_ids set_s _ eq_refl))).
Defined.

Lemma harvest_returns_witness :
  doc_paths plain = ["d/s/a"; "d/s/b-c"] ∧
  dir_paths plain = ["d"; "d/s"] ∧
  returned (harvest without_a_colon_b plain empty_world).1.
Proof.
  destruct plain_is_plain as (Hdocs & Hdirs & Hplain).
  split; [exact Hdocs|]. split; [exact Hdirs|].
  apply (harvest_returns without_a_colon_b plain empty_world Hplain).
  intros p Hp. unfold empty_world. cbn [files]. rewrite lookup_empty. discriminate.
Defined.

Lemma harvestAll_true_all_files_witness :
  (harvestAll echo [plain] empty_world).1 = Ok true ∧
  is_file (files (harvestAll echo [plain] empty_world).2 !! "d/s/b-c") = true.
Proof.
  split; [reflexivity|].
  refine (proj1 (harvestAll_true_all_files echo [plain] empty_world
                   (harvestAll echo [plain] empty_world).2 _)
            plain (set_of "s" {["a"; "b:c"]}) "b:c" _ _ _).
  - vm_compute. reflexivity.
  - by left.
  - by left.
  - apply list_elem_of_In. vm_compute. auto.
Defined.

Lemma harvest_ids_fetches_all_witness :
  (harvest_ids without_a_colon_b plain "d/s" ["a:b"; "c"] (true, 0) empty_world).1
  = Ok (false, 1) ∧
  calls (harvest_ids without_a_colon_b plain "d/s" ["a:b"; "c"] (true, 0) empty_world).2
  = [call_of plain "d/s" "a:b"; call_of plain "d/s" "c"].
Proof.
  split; [reflexivity|].
  refine (proj2 (harvest_ids_fetches_all without_a_colon_b plain "d/s" ["a:b"; "c"]
                   (true, 0) empty_world _)).
  intros docId Hin. unfold empty_world. cbn [files]. by rewrite lookup_empty.
Defined.

End ConcreteMore.
